(** * A generic finite-state-machine engine and its modulo-3 client

    Shallow embedding of the Go packages [finiteautomation] (the generic
    engine: [FSMConfig], [FSM], [NewFSM], [Reset], [Transition],
    [Process], [Execute], [IsInFinalState], [ValidateInput]) and
    [modthree] (the binary modulo-3 wrapper: [NewModThreeGeneric],
    [ParseInput], [ComputeModThree], [IsDivisibleByThree]).

    Go maps are finite maps ([gmap]), the derived lookup sets are finite
    sets ([gset]), slices are lists, and a method with a pointer receiver
    is a function from the receiver's value to a result paired with the
    receiver's new value. *)

From Stdlib Require Import ZArith Lia.
From stdpp Require Import gmap strings list fin_maps.

Open Scope Z_scope.

(** ** Errors *)

(** The package-level sentinel errors ([errors.New] values). *)
Inductive Sentinel : Set :=
| ErrNoTransition
| ErrInvalidInput
| ErrNoStates
| ErrNoAlphabet
| ErrInvalidInitial
| ErrInvalidFinal
| ErrInvalidTransition.

#[global] Instance Sentinel_eq_dec : EqDecision Sentinel.
Proof. solve_decision. Defined.

(** The message of each sentinel. *)
Definition Sentinel_message (k : Sentinel) : string :=
  match k with
  | ErrNoTransition => "no transition defined"
  | ErrInvalidInput => "invalid input symbol"
  | ErrNoStates => "no states defined"
  | ErrNoAlphabet => "no alphabet defined"
  | ErrInvalidInitial => "initial state not in states list"
  | ErrInvalidFinal => "final state not in states list"
  | ErrInvalidTransition => "transition references undefined state"
  end.

Module finiteautomation.

Section Engine.

(** [State] and [Input] are the two [comparable] type parameters. *)
Context {State Input : Type}.
Context `{Countable State, Countable Input}.

(** An error value is a sentinel or one of the [fmt.Errorf] wrappers of
    the package, one constructor per call site; each wrapper records the
    error it wraps with [%w] through [Unwrap] below. *)
Inductive error : Type :=
| errSentinel (k : Sentinel)
    (* ErrNoStates, ErrNoAlphabet, ErrInvalidInitial returned as they are *)
| errFinalState (finalState : State)
    (* "%w: %v", ErrInvalidFinal, finalState *)
| errFromState (fromState : State)
    (* "%w: from state %v", ErrInvalidTransition, fromState *)
| errInputNotInAlphabet (input : Input)
    (* "%w: input %v not in alphabet", ErrInvalidInput, input *)
| errToState (toState : State)
    (* "%w: to state %v", ErrInvalidTransition, toState *)
| errForState (currentState : State)
    (* "%w for state: %v", ErrNoTransition, currentState *)
| errFromStateWithInput (currentState : State) (input : Input)
    (* "%w from state %v with input %v", ErrNoTransition, currentState, input *)
| errAtPosition (i : nat) (err : error).
    (* "error at position %d: %w", i, err *)

(** The error wrapped by [%w], if any. *)
Definition Unwrap (e : error) : option error :=
  match e with
  | errSentinel _ => None
  | errFinalState _ => Some (errSentinel ErrInvalidFinal)
  | errFromState _ => Some (errSentinel ErrInvalidTransition)
  | errInputNotInAlphabet _ => Some (errSentinel ErrInvalidInput)
  | errToState _ => Some (errSentinel ErrInvalidTransition)
  | errForState _ => Some (errSentinel ErrNoTransition)
  | errFromStateWithInput _ _ => Some (errSentinel ErrNoTransition)
  | errAtPosition _ err => Some err
  end.

(** The sentinel at the end of the [Unwrap] chain: the kind of the error,
    the one [errors.Is] recognises. *)
Fixpoint kind (e : error) : Sentinel :=
  match e with
  | errSentinel k => k
  | errFinalState _ => ErrInvalidFinal
  | errFromState _ => ErrInvalidTransition
  | errInputNotInAlphabet _ => ErrInvalidInput
  | errToState _ => ErrInvalidTransition
  | errForState _ => ErrNoTransition
  | errFromStateWithInput _ _ => ErrNoTransition
  | errAtPosition _ err => kind err
  end.

(** [errors.Is] against a sentinel: some error of the [Unwrap] chain is
    the sentinel. *)
Fixpoint errors_Is (e : error) (target : Sentinel) : bool :=
  match e with
  | errSentinel k => bool_decide (k = target)
  | errAtPosition _ err => errors_Is err target
  | _ => match Unwrap e with
         | Some (errSentinel k) => bool_decide (k = target)
         | _ => false
         end
  end.

(** ** Configuration and engine *)

Record FSMConfig : Type := mkFSMConfig {
  States : list State;
  Alphabet : list Input;
  InitialState : State;
  FinalStates : list State;
  Transitions : gmap State (gmap Input State)
}.

(** [AddTransition]: a nil outer map or a missing row is created first. *)
Definition AddTransition (from : State) (input : Input) (to : State)
    (cfg : FSMConfig) : FSMConfig :=
  let row := default ∅ (Transitions cfg !! from) in
  {| States := States cfg;
     Alphabet := Alphabet cfg;
     InitialState := InitialState cfg;
     FinalStates := FinalStates cfg;
     Transitions := <[from := <[input := to]> row]> (Transitions cfg) |}.

Record FSM : Type := mkFSM {
  config : FSMConfig;
  currentState : State;
  stateHistory : list State;
  alphabetSet : gset Input;
  finalStateSet : gset State
}.

(** ** Iteration order of [range] over a map

    Go leaves the order in which [range] visits a map unspecified.  The
    validation loop returns at the first offending entry it meets, so
    the order is an input of the model: any enumeration of the rows of
    the table, and for every row any enumeration of its entries. *)
Record RangeOrder : Type := mkRangeOrder {
  range_rows : gmap State (gmap Input State) -> list (State * gmap Input State);
  range_rows_perm : forall m, range_rows m ≡ₚ map_to_list m;
  range_row : State -> gmap Input State -> list (Input * State);
  range_row_perm : forall s m, range_row s m ≡ₚ map_to_list m
}.

(** The order in which [map_to_list] lists the entries. *)
Definition listOrder : RangeOrder :=
  {| range_rows := map_to_list;
     range_rows_perm := fun m => reflexivity (map_to_list m);
     range_row := fun _ => map_to_list;
     range_row_perm := fun _ m => reflexivity (map_to_list m) |}.

(** ** Validation *)

(** The loop over [config.FinalStates]. *)
Fixpoint validateFinalStates (stateSet : gset State) (finalStates : list State)
    : option error :=
  match finalStates with
  | [] => None
  | finalState :: rest =>
      if decide (finalState ∈ stateSet)
      then validateFinalStates stateSet rest
      else Some (errFinalState finalState)
  end.

(** The inner loop over the entries of one row. *)
Fixpoint validateRow (stateSet : gset State) (alphabetSet : gset Input)
    (transitions : list (Input * State)) : option error :=
  match transitions with
  | [] => None
  | (input, toState) :: rest =>
      if decide (input ∈ alphabetSet) then
        if decide (toState ∈ stateSet)
        then validateRow stateSet alphabetSet rest
        else Some (errToState toState)
      else Some (errInputNotInAlphabet input)
  end.

(** The outer loop over the rows of [config.Transitions]. *)
Fixpoint validateRows (ord : RangeOrder) (stateSet : gset State)
    (alphabetSet : gset Input) (rows : list (State * gmap Input State))
    : option error :=
  match rows with
  | [] => None
  | (fromState, transitions) :: rest =>
      if decide (fromState ∈ stateSet) then
        match validateRow stateSet alphabetSet (range_row ord fromState transitions) with
        | Some err => Some err
        | None => validateRows ord stateSet alphabetSet rest
        end
      else Some (errFromState fromState)
  end.

(** [validateAndBuildLookupSets]: the error, or the alphabet set and the
    final-state set. *)
Definition validateAndBuildLookupSets (ord : RangeOrder) (cfg : FSMConfig)
    : error + (gset Input * gset State) :=
  if decide (length (States cfg) = 0%nat) then inl (errSentinel ErrNoStates)
  else if decide (length (Alphabet cfg) = 0%nat) then inl (errSentinel ErrNoAlphabet)
  else
    let stateSet : gset State := list_to_set (States cfg) in
    if decide (InitialState cfg ∈ stateSet) then
      match (if decide (0 < length (FinalStates cfg))%nat
             then validateFinalStates stateSet (FinalStates cfg)
             else None) with
      | Some err => inl err
      | None =>
          let alphabetSet : gset Input := list_to_set (Alphabet cfg) in
          match validateRows ord stateSet alphabetSet
                  (range_rows ord (Transitions cfg)) with
          | Some err => inl err
          | None => inr (alphabetSet, list_to_set (FinalStates cfg))
          end
      end
    else inl (errSentinel ErrInvalidInitial).

(** [NewFSM]: the error and no engine, or the engine. *)
Definition NewFSM (ord : RangeOrder) (cfg : FSMConfig) : error + FSM :=
  match validateAndBuildLookupSets ord cfg with
  | inl err => inl err
  | inr (alphabetSet, finalStateSet) =>
      inr {| config := cfg;
             currentState := InitialState cfg;
             stateHistory := [InitialState cfg];
             alphabetSet := alphabetSet;
             finalStateSet := finalStateSet |}
  end.

(** ** Methods

    A method takes the engine and returns its result and the engine as
    the call leaves it. *)
Definition method (A : Type) : Type := FSM -> A * FSM.

Definition ret {A} (a : A) : method A := fun f => (a, f).

Definition bind {A B} (m : method A) (k : A -> method B) : method B :=
  fun f => let '(a, f') := m f in k a f'.

Definition Reset : method unit :=
  fun f =>
    let initial := InitialState (config f) in
    (tt, {| config := config f;
            currentState := initial;
            stateHistory := [initial];
            alphabetSet := alphabetSet f;
            finalStateSet := finalStateSet f |}).

Definition CurrentState (f : FSM) : State := currentState f.

(** [StateHistory] returns a fresh copy: a list is a value already. *)
Definition StateHistory (f : FSM) : list State := stateHistory f.

Definition Transition (input : Input) : method (option error) :=
  fun f =>
    match Transitions (config f) !! currentState f with
    | None => (Some (errForState (currentState f)), f)
    | Some stateTransitions =>
        match stateTransitions !! input with
        | None => (Some (errFromStateWithInput (currentState f) input), f)
        | Some nextState =>
            (None, {| config := config f;
                      currentState := nextState;
                      stateHistory := stateHistory f ++ [nextState];
                      alphabetSet := alphabetSet f;
                      finalStateSet := finalStateSet f |})
        end
    end.

(** The loop of [Process], from index [i] on. *)
Fixpoint ProcessFrom (i : nat) (inputs : list Input) : method (option error) :=
  match inputs with
  | [] => ret None
  | input :: rest =>
      bind (Transition input) (fun r =>
        match r with
        | Some err => ret (Some (errAtPosition i err))
        | None => ProcessFrom (S i) rest
        end)
  end.

Definition Process (inputs : list Input) : method (option error) :=
  ProcessFrom 0 inputs.

Definition Execute (inputs : list Input) : method (option error) :=
  bind Reset (fun _ => Process inputs).

Definition IsInFinalState (f : FSM) : bool :=
  if decide (size (finalStateSet f) = 0%nat) then false
  else bool_decide (currentState f ∈ finalStateSet f).

Definition ValidateInput (input : Input) (f : FSM) : bool :=
  bool_decide (input ∈ alphabetSet f).

(** ** Conditions that make a configuration invalid

    A transition is an entry of a row of the table; the source state of
    a row is its key in the outer map. *)
Definition noStates (cfg : FSMConfig) : Prop := States cfg = [].

Definition noAlphabet (cfg : FSMConfig) : Prop := Alphabet cfg = [].

Definition undeclaredInitial (cfg : FSMConfig) : Prop :=
  InitialState cfg ∉ States cfg.

Definition undeclaredFinal (cfg : FSMConfig) : Prop :=
  exists s, s ∈ FinalStates cfg /\ s ∉ States cfg.

Definition undeclaredSource (cfg : FSMConfig) : Prop :=
  exists s row, Transitions cfg !! s = Some row /\ s ∉ States cfg.

Definition undeclaredSymbol (cfg : FSMConfig) : Prop :=
  exists s row x t,
    Transitions cfg !! s = Some row /\ row !! x = Some t /\ x ∉ Alphabet cfg.

Definition undeclaredDestination (cfg : FSMConfig) : Prop :=
  exists s row x t,
    Transitions cfg !! s = Some row /\ row !! x = Some t /\ t ∉ States cfg.

Definition invalidConfig (cfg : FSMConfig) : Prop :=
  noStates cfg \/ noAlphabet cfg \/ undeclaredInitial cfg \/ undeclaredFinal cfg
  \/ undeclaredSource cfg \/ undeclaredSymbol cfg \/ undeclaredDestination cfg.

(** What an error returned by the constructor reports, by its kind. *)
Definition reportedCondition (cfg : FSMConfig) (k : Sentinel) : Prop :=
  match k with
  | ErrNoStates => noStates cfg
  | ErrNoAlphabet => noAlphabet cfg
  | ErrInvalidInitial => undeclaredInitial cfg
  | ErrInvalidFinal => undeclaredFinal cfg
  | ErrInvalidInput => undeclaredSymbol cfg
  | ErrInvalidTransition => undeclaredSource cfg \/ undeclaredDestination cfg
  | ErrNoTransition => False
  end.

(** ** Runs *)

(** [Steps f inputs f']: [Transition] applied to each symbol of
    [inputs] in order succeeds and takes the engine from [f] to [f']. *)
Inductive Steps : FSM -> list Input -> FSM -> Prop :=
| Steps_nil f : Steps f [] f
| Steps_cons f input f' rest f'' :
    Transition input f = (None, f') ->
    Steps f' rest f'' ->
    Steps f (input :: rest) f''.

(** The engines a client can hold: built by [NewFSM] from [cfg], then
    driven by any sequence of the mutating methods. *)
Inductive Reachable (ord : RangeOrder) (cfg : FSMConfig) : FSM -> Prop :=
| Reachable_NewFSM f :
    NewFSM ord cfg = inr f -> Reachable ord cfg f
| Reachable_Reset f :
    Reachable ord cfg f -> Reachable ord cfg (Reset f).2
| Reachable_Transition f input :
    Reachable ord cfg f -> Reachable ord cfg (Transition input f).2
| Reachable_Process f inputs :
    Reachable ord cfg f -> Reachable ord cfg (Process inputs f).2
| Reachable_Execute f inputs :
    Reachable ord cfg f -> Reachable ord cfg (Execute inputs f).2.

(** The run state is freshly reset. *)
Definition freshlyReset (f : FSM) : Prop :=
  currentState f = InitialState (config f)
  /\ stateHistory f = [InitialState (config f)].

(** The invariant of the run state. *)
Definition historyInvariant (f : FSM) : Prop :=
  stateHistory f <> []
  /\ head (stateHistory f) = Some (InitialState (config f))
  /\ last (stateHistory f) = Some (currentState f)
  /\ Forall (fun s => s ∈ States (config f)) (stateHistory f).

(** [Execute] as the specification words it: [Reset], then [Process]
    on the engine that [Reset] leaves. *)
Definition ResetThenProcess (inputs : list Input) (f : FSM)
    : option error * FSM :=
  let f1 := snd (Reset f) in
  Process inputs f1.

End Engine.

End finiteautomation.

(** ** The modulo-3 client *)

Module modthree.

Import finiteautomation.

(** [ModState] is an [int], [BinarySymbol] a [rune]. *)
Abbreviation ModState := Z.
Abbreviation BinarySymbol := Z.

Definition ModState0 : ModState := 0.
Definition ModState1 : ModState := 1.
Definition ModState2 : ModState := 2.

Definition Binary0 : BinarySymbol := 48. (* '0' *)
Definition Binary1 : BinarySymbol := 49. (* '1' *)

Record ModThreeGeneric : Type := mkModThreeGeneric {
  fsm : @FSM ModState BinarySymbol _ _ _ _
}.

(** The configuration literal of [NewModThreeGeneric]. *)
Definition modThreeConfig : @FSMConfig ModState BinarySymbol _ _ _ _ :=
  {| States := [ModState0; ModState1; ModState2];
     Alphabet := [Binary0; Binary1];
     InitialState := ModState0;
     FinalStates := [ModState0; ModState1; ModState2];
     Transitions :=
       {[ ModState0 := {[ Binary0 := ModState0; Binary1 := ModState1 ]};
          ModState1 := {[ Binary0 := ModState2; Binary1 := ModState0 ]};
          ModState2 := {[ Binary0 := ModState1; Binary1 := ModState2 ]} ]} |}.

(** [NewModThreeGeneric]: [None] is the panic on an invalid
    configuration. *)
Definition NewModThreeGeneric (ord : RangeOrder) : option ModThreeGeneric :=
  match NewFSM ord modThreeConfig with
  | inl _ => None
  | inr f => Some {| fsm := f |}
  end.

(** *** Strings

    A Go string is a sequence of bytes; [range] over it decodes UTF-8
    and yields, for each code point, the byte offset at which it starts
    and the rune. *)
Definition bytes (s : string) : list Z :=
  map (fun a => Z.of_N (Ascii.N_of_ascii a)) (String.list_ascii_of_string s).

Definition len (s : string) : nat := length (bytes s).

Definition runeError : Z := 0xFFFD.
Definition runeSelf : Z := 0x80.
Definition maxRune : Z := 0x10FFFF.
Definition surrogateMin : Z := 0xD800.
Definition surrogateMax : Z := 0xDFFF.
Definition t2 : Z := 0xC0.
Definition t3 : Z := 0xE0.
Definition t4 : Z := 0xF0.
Definition t5 : Z := 0xF8.
Definition maskx : Z := 0x3F.
Definition mask2 : Z := 0x1F.
Definition mask3 : Z := 0x0F.
Definition mask4 : Z := 0x07.
Definition rune1Max : Z := 0x7F.
Definition rune2Max : Z := 0x7FF.
Definition rune3Max : Z := 0xFFFF.
Definition locb : Z := 0x80.
Definition hicb : Z := 0xBF.

Definition continuation (b : Z) : bool := (locb <=? b) && (b <=? hicb).

(** The runtime's [decoderune] on the bytes from the current offset on:
    the rune and the number of bytes it takes.  An ill-formed sequence
    gives [runeError] and one byte. *)
Definition decoderune (s : list Z) : Z * nat :=
  match s with
  | [] => (runeError, 1%nat)
  | s0 :: tl =>
      if (t2 <=? s0) && (s0 <? t3) then
        match tl with
        | s1 :: _ =>
            let r := Z.lor (Z.shiftl (Z.land s0 mask2) 6) (Z.land s1 maskx) in
            if continuation s1 && (rune1Max <? r) then (r, 2%nat)
            else (runeError, 1%nat)
        | _ => (runeError, 1%nat)
        end
      else if (t3 <=? s0) && (s0 <? t4) then
        match tl with
        | s1 :: s2 :: _ =>
            let r := Z.lor (Z.lor (Z.shiftl (Z.land s0 mask3) 12)
                                  (Z.shiftl (Z.land s1 maskx) 6))
                           (Z.land s2 maskx) in
            if continuation s1 && continuation s2 && (rune2Max <? r)
               && negb ((surrogateMin <=? r) && (r <=? surrogateMax))
            then (r, 3%nat)
            else (runeError, 1%nat)
        | _ => (runeError, 1%nat)
        end
      else if (t4 <=? s0) && (s0 <? t5) then
        match tl with
        | s1 :: s2 :: s3 :: _ =>
            let r := Z.lor (Z.lor (Z.lor (Z.shiftl (Z.land s0 mask4) 18)
                                         (Z.shiftl (Z.land s1 maskx) 12))
                                  (Z.shiftl (Z.land s2 maskx) 6))
                           (Z.land s3 maskx) in
            if continuation s1 && continuation s2 && continuation s3
               && (rune3Max <? r) && (r <=? maxRune)
            then (r, 4%nat)
            else (runeError, 1%nat)
        | _ => (runeError, 1%nat)
        end
      else (runeError, 1%nat)
  end.

(** One step of [range]: a byte below [runeSelf] is the rune itself. *)
Definition nextRune (s : list Z) : Z * nat :=
  match s with
  | s0 :: _ => if s0 <? runeSelf then (s0, 1%nat) else decoderune s
  | [] => decoderune s
  end.

(** The pairs (byte offset, rune) that [range] yields from offset [k]
    on; [skip] counts the bytes of the current rune still to pass. *)
Fixpoint rangeFrom (k skip : nat) (s : list Z) : list (nat * Z) :=
  match s with
  | [] => []
  | _ :: rest =>
      match skip with
      | S n => rangeFrom (S k) n rest
      | O => let '(r, width) := nextRune s in
             (k, r) :: rangeFrom (S k) (Nat.pred width) rest
      end
  end.

Definition rangeString (s : string) : list (nat * Z) := rangeFrom 0 0 (bytes s).

(** *** The wrapper's operations *)

(** The error of [ParseInput]:
    "invalid binary character '%c' at position %d", char, i. *)
Inductive parseError : Type :=
| errInvalidBinaryCharacter (char : Z) (i : nat).

(** The loop of [ParseInput] over what [range] yields, filling the
    slice [inputs] by index; the index is a byte offset of the string
    and the slice has the string's length, so the store is in range. *)
Fixpoint parseLoop (m : ModThreeGeneric) (chars : list (nat * Z))
    (inputs : list BinarySymbol) : parseError + list BinarySymbol :=
  match chars with
  | [] => inr inputs
  | (i, char) :: rest =>
      if ValidateInput char (fsm m)
      then parseLoop m rest (<[i := char]> inputs)
      else inl (errInvalidBinaryCharacter char i)
  end.

(** [ParseInput]: the error, or the slice, where [None] is the nil
    slice returned for the empty string and for "0". *)
Definition ParseInput (binaryStr : string) (m : ModThreeGeneric)
    : parseError + option (list BinarySymbol) :=
  if decide (binaryStr = "" ∨ binaryStr = "0") then inr None
  else
    match parseLoop m (rangeString binaryStr) (replicate (len binaryStr) 0) with
    | inl err => inl err
    | inr inputs => inr (Some inputs)
    end.

(** [ComputeModThree]: the pair it returns and the wrapper as the call
    leaves it. *)
Definition ComputeModThree (binaryStr : string) (m : ModThreeGeneric)
    : (Z * bool) * ModThreeGeneric :=
  match ParseInput binaryStr m with
  | inl _ => ((0, false), m)
  | inr None => ((0, true), m)
  | inr (Some inputs) =>
      match Execute inputs (fsm m) with
      | (Some _, f') => ((0, false), {| fsm := f' |})
      | (None, f') => ((CurrentState f', true), {| fsm := f' |})
      end
  end.

Definition IsDivisibleByThree (binaryStr : string) (m : ModThreeGeneric)
    : bool * ModThreeGeneric :=
  let '((remainder, ok), m') := ComputeModThree binaryStr m in
  (ok && (remainder =? 0), m').

(** The value of a string of binary digits, most significant first. *)
Definition binaryValue (s : string) : Z :=
  fold_left (fun v b => 2 * v + (b - 48)) (bytes s) 0.

(** The byte is '0' or '1'. *)
Definition binaryByte (b : Z) : Prop := b = Binary0 \/ b = Binary1.

(** Every character of the string is '0' or '1'. *)
Definition isBinary (s : string) : Prop := Forall binaryByte (bytes s).

(** Some character of the string, as [range] yields them, is neither
    '0' nor '1'. *)
Definition hasInvalidCharacter (s : string) : Prop :=
  Exists (fun p => ~ binaryByte p.2) (rangeString s).

End modthree.

(** ** Configurations of the test suite

    String states and rune inputs, as in [TestFSMValidation]. *)

Module fsm_test.

Import finiteautomation.

(** "valid config". *)
Definition validConfig : @FSMConfig string Z _ _ _ _ :=
  {| States := ["A"; "B"];
     Alphabet := [48; 49];
     InitialState := "A";
     FinalStates := ["B"];
     Transitions := {[ "A" := {[ 48 := "B" ]} ]} |}.

(** "transition to undefined state": B is not in states. *)
Definition toUndefinedState : @FSMConfig string Z _ _ _ _ :=
  {| States := ["A"];
     Alphabet := [48];
     InitialState := "A";
     FinalStates := [];
     Transitions := {[ "A" := {[ 48 := "B" ]} ]} |}.

(** The mirror image: the row of B, which is not in states, leads to A. *)
Definition fromUndefinedState : @FSMConfig string Z _ _ _ _ :=
  {| States := ["A"];
     Alphabet := [48];
     InitialState := "A";
     FinalStates := [];
     Transitions := {[ "B" := {[ 48 := "A" ]} ]} |}.

(** The configuration of [TestGenericFSM_ValidateInput]: no final state,
    no transition. *)
Definition noFinalConfig : @FSMConfig string Z _ _ _ _ :=
  {| States := ["A"];
     Alphabet := [1; 2; 3];
     InitialState := "A";
     FinalStates := [];
     Transitions := ∅ |}.

(** The engine [NewFSM] builds from [validConfig]. *)
Definition validEngine : @FSM string Z _ _ _ _ :=
  {| config := validConfig;
     currentState := "A";
     stateHistory := ["A"];
     alphabetSet := list_to_set [48; 49];
     finalStateSet := list_to_set ["B"] |}.

(** The engine [NewFSM] builds from [noFinalConfig]. *)
Definition noFinalEngine : @FSM string Z _ _ _ _ :=
  {| config := noFinalConfig;
     currentState := "A";
     stateHistory := ["A"];
     alphabetSet := list_to_set [1; 2; 3];
     finalStateSet := ∅ |}.

(** The wrapper [NewModThreeGeneric] builds. *)
Definition freshModThree : modthree.ModThreeGeneric :=
  {| modthree.fsm :=
       {| config := modthree.modThreeConfig;
          currentState := 0;
          stateHistory := [0];
          alphabetSet := list_to_set [48; 49];
          finalStateSet := list_to_set [0; 1; 2] |} |}.

End fsm_test.

(** ** The second modulo-3 client

    The [main] package holds its own wrapper over the engine: the same
    table, remainder 0 as the only final state, and an
    [IsDivisibleByThree] that runs the engine itself. *)

Module main.

Import finiteautomation.

Abbreviation ModState := Z.
Abbreviation BinarySymbol := Z.

Definition ModState0 : ModState := 0.
Definition ModState1 : ModState := 1.
Definition ModState2 : ModState := 2.

Definition Binary0 : BinarySymbol := 48. (* '0' *)
Definition Binary1 : BinarySymbol := 49. (* '1' *)

Record ModThreeGeneric : Type := mkModThreeGeneric {
  fsm : @FSM ModState BinarySymbol _ _ _ _
}.

(** The configuration literal of [NewModThreeGeneric]. *)
Definition modThreeConfig : @FSMConfig ModState BinarySymbol _ _ _ _ :=
  {| States := [ModState0; ModState1; ModState2];
     Alphabet := [Binary0; Binary1];
     InitialState := ModState0;
     FinalStates := [ModState0];
     Transitions :=
       {[ ModState0 := {[ Binary0 := ModState0; Binary1 := ModState1 ]};
          ModState1 := {[ Binary0 := ModState2; Binary1 := ModState0 ]};
          ModState2 := {[ Binary0 := ModState1; Binary1 := ModState2 ]} ]} |}.

(** [NewModThreeGeneric]: [None] is the panic on an invalid
    configuration. *)
Definition NewModThreeGeneric (ord : RangeOrder) : option ModThreeGeneric :=
  match NewFSM ord modThreeConfig with
  | inl _ => None
  | inr f => Some {| fsm := f |}
  end.

(** The loop of [ParseInput]; strings, [range] and the error are those
    of the language and of the format string, as in [modthree]. *)
Fixpoint parseLoop (m : ModThreeGeneric) (chars : list (nat * Z))
    (inputs : list BinarySymbol) : modthree.parseError + list BinarySymbol :=
  match chars with
  | [] => inr inputs
  | (i, char) :: rest =>
      if ValidateInput char (fsm m)
      then parseLoop m rest (<[i := char]> inputs)
      else inl (modthree.errInvalidBinaryCharacter char i)
  end.

Definition ParseInput (binaryStr : string) (m : ModThreeGeneric)
    : modthree.parseError + option (list BinarySymbol) :=
  if decide (binaryStr = "" ∨ binaryStr = "0") then inr None
  else
    match parseLoop m (modthree.rangeString binaryStr)
            (replicate (modthree.len binaryStr) 0) with
    | inl err => inl err
    | inr inputs => inr (Some inputs)
    end.

(** [IsDivisibleByThree]: the boolean it returns and the wrapper as the
    call leaves it. *)
Definition IsDivisibleByThree (binaryStr : string) (m : ModThreeGeneric)
    : bool * ModThreeGeneric :=
  match ParseInput binaryStr m with
  | inl _ => (false, m)
  | inr None => (true, m)
  | inr (Some inputs) =>
      match Execute inputs (fsm m) with
      | (Some _, f') => (false, {| fsm := f' |})
      | (None, f') => (true, {| fsm := f' |})
      end
  end.

End main.

(** ** Notions about tables and histories *)

Section EngineNotions.

Context {State Input : Type}.
Context `{Countable State, Countable Input}.

Import finiteautomation.

Implicit Types (cfg : @FSMConfig State Input _ _ _ _).

(** The entry of the nested table for a state and a symbol, if any. *)
Definition lookupTransition cfg (s : State) (x : Input)
    : option State :=
  match Transitions cfg !! s with
  | Some row => row !! x
  | None => None
  end.

(** The table has an entry for every declared state and every symbol of
    the alphabet. *)
Definition completeTable cfg : Prop :=
  forall s x, s ∈ States cfg -> x ∈ Alphabet cfg ->
    is_Some (lookupTransition cfg s x).

(** Every two consecutive states of a history are joined by an entry of
    the table. *)
Definition historyWalk cfg (history : list State) : Prop :=
  forall i a b,
    history !! i = Some a -> history !! S i = Some b ->
    exists x, lookupTransition cfg a x = Some b.

(** The order opposite to [listOrder]. *)
Definition reverseOrder : @RangeOrder State Input _ _ _ _ :=
  {| range_rows := fun m => reverse (map_to_list m);
     range_rows_perm := fun m => reverse_Permutation (map_to_list m);
     range_row := fun _ m => reverse (map_to_list m);
     range_row_perm := fun _ m => reverse_Permutation (map_to_list m) |}.

(** The extended transition function of the automaton: the state that
    the symbols lead to from [s], if the table has every entry on the
    way. *)
Fixpoint extendedTransition cfg (s : State) (inputs : list Input)
    : option State :=
  match inputs with
  | [] => Some s
  | x :: rest =>
      match lookupTransition cfg s x with
      | Some t => extendedTransition cfg t rest
      | None => None
      end
  end.

End EngineNotions.

(** ** More configurations and engines to run *)

Module more_test.

Import finiteautomation fsm_test.

(** [validConfig] with a loop on A added by [AddTransition]. *)
Definition loopConfig : @FSMConfig string Z _ _ _ _ :=
  AddTransition "A" 49 "A" validConfig.

(** The engine [NewFSM] builds from [loopConfig]. *)
Definition loopEngine : @FSM string Z _ _ _ _ :=
  {| config := loopConfig;
     currentState := "A";
     stateHistory := ["A"];
     alphabetSet := list_to_set [48; 49];
     finalStateSet := list_to_set ["B"] |}.

(** A configuration with several defects: the final states C and D are
    not declared, nor are the source Z and the destination Y of its only
    transition, whose symbol is not in the alphabet either. *)
Definition manyDefects : @FSMConfig string Z _ _ _ _ :=
  {| States := ["A"];
     Alphabet := [48];
     InitialState := "A";
     FinalStates := ["A"; "C"; "D"];
     Transitions := {[ "Z" := {[ 50 := "Y" ]} ]} |}.

(** The wrapper that [NewModThreeGeneric] of the [main] package builds. *)
Definition freshMain : main.ModThreeGeneric :=
  {| main.fsm :=
       {| config := main.modThreeConfig;
          currentState := 0;
          stateHistory := [0];
          alphabetSet := list_to_set [48; 49];
          finalStateSet := list_to_set [0] |} |}.

End more_test.

(** * Properties of the engine *)

Import finiteautomation.

Section EngineProperties.

Context {State Input : Type}.
Context `{Countable State, Countable Input}.

Implicit Types (cfg : @FSMConfig State Input _ _ _ _).
Implicit Types (f : @FSM State Input _ _ _ _).
Implicit Types (ord : @RangeOrder State Input _ _ _ _).
Implicit Types (e : @error State Input).

(** ** Errors *)

Lemma errors_Is_kind e (target : Sentinel) :
  errors_Is e target = bool_decide (kind e = target).
Proof. induction e; done. Qed.

(** ** Validation *)

Lemma validateFinalStates_None (stateSet : gset State) finalStates :
  validateFinalStates (Input := Input) stateSet finalStates = None
  <-> Forall (fun s => s ∈ stateSet) finalStates.
Proof.
  induction finalStates as [|s rest IH]; simpl.
  - split; [constructor | done].
  - destruct (decide (s ∈ stateSet)) as [Hin|Hout].
    + rewrite IH. split; [by constructor | by inversion 1].
    + split; [done | inversion 1; done].
Qed.

Lemma validateFinalStates_Some (stateSet : gset State) finalStates e :
  validateFinalStates stateSet finalStates = Some e ->
  exists s, e = errFinalState s /\ s ∈ finalStates /\ s ∉ stateSet.
Proof.
  induction finalStates as [|s rest IH]; simpl; [done|].
  destruct (decide (s ∈ stateSet)) as [Hin|Hout].
  - intros He. destruct (IH He) as (s' & -> & Hs' & Hn).
    exists s'. split_and!; [done | by right | done].
  - intros [= <-]. exists s. split_and!; [done | by left | done].
Qed.

(** The guard [len(config.FinalStates) > 0] around the loop changes
    nothing: the loop over no final state finds no error. *)
Lemma validateFinalStates_guard (stateSet : gset State) finalStates :
  (if decide (0 < length finalStates)%nat
   then validateFinalStates (Input := Input) stateSet finalStates
   else None)
  = validateFinalStates stateSet finalStates.
Proof. destruct finalStates; [done|]. simpl length. by destruct (decide _); [|lia]. Qed.

Lemma validateRow_None (stateSet : gset State) (alphabetSet : gset Input) row :
  validateRow stateSet alphabetSet row = None
  <-> Forall (fun p => p.1 ∈ alphabetSet /\ p.2 ∈ stateSet) row.
Proof.
  induction row as [|[x t] rest IH]; simpl.
  - split; [constructor | done].
  - destruct (decide (x ∈ alphabetSet)); [destruct (decide (t ∈ stateSet))|].
    + rewrite IH. split; [by constructor | by inversion 1].
    + split; [done | inversion 1; simpl in *; tauto].
    + split; [done | inversion 1; simpl in *; tauto].
Qed.

Lemma validateRow_Some (stateSet : gset State) (alphabetSet : gset Input) row e :
  validateRow stateSet alphabetSet row = Some e ->
  (exists x t, (x, t) ∈ row /\ (x ∉ alphabetSet) /\ e = errInputNotInAlphabet x)
  \/ (exists x t, (x, t) ∈ row /\ (t ∉ stateSet) /\ e = errToState t).
Proof.
  induction row as [|[x t] rest IH]; simpl; [done|].
  destruct (decide (x ∈ alphabetSet)); [destruct (decide (t ∈ stateSet))|].
  - intros He. destruct (IH He) as [(x' & t' & Hin & ?)|(x' & t' & Hin & ?)];
      [left | right]; exists x', t'; (split; [by right | done]).
  - intros [= <-]. right. exists x, t. split_and!; [by left | done | done].
  - intros [= <-]. left. exists x, t. split_and!; [by left | done | done].
Qed.

Lemma validateRows_None ord (stateSet : gset State) (alphabetSet : gset Input) rows :
  validateRows ord stateSet alphabetSet rows = None
  <-> Forall (fun r => r.1 ∈ stateSet
                /\ forall x t, r.2 !! x = Some t -> x ∈ alphabetSet /\ t ∈ stateSet) rows.
Proof.
  assert (Hrow : forall s (m : gmap Input State),
    validateRow stateSet alphabetSet (range_row ord s m) = None
    <-> forall x t, m !! x = Some t -> x ∈ alphabetSet /\ t ∈ stateSet).
  { intros s m. rewrite validateRow_None, (range_row_perm ord s m), Forall_forall.
    split.
    - intros Hall x t Hxt. apply (Hall (x, t)). by apply elem_of_map_to_list.
    - intros Hall [x t] Hin. apply Hall. by apply elem_of_map_to_list. }
  induction rows as [|[s m] rest IH]; simpl.
  - split; [constructor | done].
  - destruct (decide (s ∈ stateSet)) as [Hin|Hout].
    + destruct (validateRow _ _ _) as [e|] eqn:Hr.
      * split; [done|]. inversion 1 as [|? ? [_ Hm] _]; subst. simpl in Hm.
        apply (proj2 (Hrow s m)) in Hm. congruence.
      * rewrite IH. pose proof (proj1 (Hrow s m) Hr) as Hm.
        split; [by constructor | by inversion 1].
    + split; [done | inversion 1; simpl in *; tauto].
Qed.

Lemma validateRows_Some ord (stateSet : gset State) (alphabetSet : gset Input) rows e :
  validateRows ord stateSet alphabetSet rows = Some e ->
  (exists s m, (s, m) ∈ rows /\ (s ∉ stateSet) /\ e = errFromState s)
  \/ (exists s m x t, (s, m) ∈ rows /\ m !! x = Some t
        /\ (x ∉ alphabetSet) /\ e = errInputNotInAlphabet x)
  \/ (exists s m x t, (s, m) ∈ rows /\ m !! x = Some t
        /\ (t ∉ stateSet) /\ e = errToState t).
Proof.
  induction rows as [|[s m] rest IH]; simpl; [done|].
  destruct (decide (s ∈ stateSet)) as [Hin|Hout].
  - destruct (validateRow _ _ _) as [e'|] eqn:Hr.
    + intros [= <-]. apply validateRow_Some in Hr.
      destruct Hr as [(x & t & Hxt & ? & ?)|(x & t & Hxt & ? & ?)];
        rewrite (range_row_perm ord s m) in Hxt; apply elem_of_map_to_list in Hxt;
        [right; left | right; right]; exists s, m, x, t;
        (split_and!; [by left | done | done | done]).
    + intros He. destruct (IH He)
        as [(s' & m' & ? & ?)|[(s' & m' & x & t & ? & ?)|(s' & m' & x & t & ? & ?)]].
      * left. exists s', m'. split; [by right | done].
      * right; left. exists s', m', x, t. split; [by right | done].
      * right; right. exists s', m', x, t. split; [by right | done].
  - intros [= <-]. left. exists s, m. split_and!; [by left | done | done].
Qed.

Lemma elem_of_range_rows ord (m : gmap State (gmap Input State)) s row :
  (s, row) ∈ range_rows ord m <-> m !! s = Some row.
Proof. rewrite (range_rows_perm ord m). apply elem_of_map_to_list. Qed.

Lemma validate_inr ord cfg alphabetSet finalStateSet :
  validateAndBuildLookupSets ord cfg = inr (alphabetSet, finalStateSet) ->
  alphabetSet = list_to_set (Alphabet cfg)
  /\ finalStateSet = list_to_set (FinalStates cfg)
  /\ ~ invalidConfig cfg.
Proof.
  unfold validateAndBuildLookupSets.
  destruct (decide (length (States cfg) = 0%nat)) as [|Hs]; [done|].
  destruct (decide (length (Alphabet cfg) = 0%nat)) as [|Ha]; [done|].
  destruct (decide (InitialState cfg ∈ _)) as [Hi|]; [|done].
  rewrite validateFinalStates_guard.
  destruct (validateFinalStates _ _) eqn:Hf; [done|].
  destruct (validateRows _ _ _ _) eqn:Hr; [done|].
  intros [= <- <-]. split_and!; [done..|].
  apply validateFinalStates_None in Hf. apply validateRows_None in Hr.
  rewrite Forall_forall in Hf. rewrite Forall_forall in Hr. rewrite elem_of_list_to_set in Hi.
  assert (Hrow : forall s row, Transitions cfg !! s = Some row ->
            s ∈ States cfg /\ forall x t, row !! x = Some t ->
              x ∈ Alphabet cfg /\ t ∈ States cfg).
  { intros s row Hsr. apply (elem_of_range_rows ord) in Hsr.
    destruct (Hr _ Hsr) as [Hk Hent]. simpl in *.
    rewrite elem_of_list_to_set in Hk. split; [done|].
    intros x t Hxt. destruct (Hent _ _ Hxt) as [Hx Ht].
    rewrite elem_of_list_to_set in Hx. by rewrite elem_of_list_to_set in Ht. }
  intros [Hc|[Hc|[Hc|[(s & Hin & Hout)|[(s & row & Hsr & Hout)
    |[(s & row & x & t & Hsr & Hxt & Hout)|(s & row & x & t & Hsr & Hxt & Hout)]]]]]].
  - apply Hs. unfold noStates in Hc. by rewrite Hc.
  - apply Ha. unfold noAlphabet in Hc. by rewrite Hc.
  - by apply Hc.
  - apply Hout. specialize (Hf _ Hin). by rewrite elem_of_list_to_set in Hf.
  - apply Hout. by apply (Hrow s row).
  - apply Hout. by apply (proj2 (Hrow s row Hsr) x t).
  - apply Hout. by apply (proj2 (Hrow s row Hsr) x t).
Qed.

Lemma validate_inl ord cfg e :
  validateAndBuildLookupSets ord cfg = inl e ->
  reportedCondition cfg (kind e).
Proof.
  unfold validateAndBuildLookupSets.
  destruct (decide (length (States cfg) = 0%nat)) as [Hs|Hs].
  { intros [= <-]. simpl. by apply nil_length_inv. }
  destruct (decide (length (Alphabet cfg) = 0%nat)) as [Ha|Ha].
  { intros [= <-]. simpl. by apply nil_length_inv. }
  destruct (decide (InitialState cfg ∈ _)) as [Hi|Hi].
  2:{ intros [= <-]. simpl. unfold undeclaredInitial.
      by rewrite elem_of_list_to_set in Hi. }
  rewrite validateFinalStates_guard.
  destruct (validateFinalStates _ _) as [e'|] eqn:Hf.
  { intros [= <-]. apply validateFinalStates_Some in Hf.
    destruct Hf as (s & -> & Hin & Hout). simpl. exists s.
    by rewrite elem_of_list_to_set in Hout. }
  destruct (validateRows _ _ _ _) as [e'|] eqn:Hr; [|done].
  intros [= <-]. apply validateRows_Some in Hr.
  destruct Hr as [(s & m & Hsm & Hout & ->)
    |[(s & m & x & t & Hsm & Hxt & Hout & ->)|(s & m & x & t & Hsm & Hxt & Hout & ->)]];
    apply elem_of_range_rows in Hsm; rewrite elem_of_list_to_set in Hout; simpl.
  - left. by exists s, m.
  - by exists s, m, x, t.
  - right. by exists s, m, x, t.
Qed.

Lemma validate_total ord cfg :
  (exists e, validateAndBuildLookupSets ord cfg = inl e /\ invalidConfig cfg)
  \/ (validateAndBuildLookupSets ord cfg
        = inr (list_to_set (Alphabet cfg), list_to_set (FinalStates cfg))
      /\ ~ invalidConfig cfg).
Proof.
  destruct (validateAndBuildLookupSets ord cfg) as [e|[a fs]] eqn:Hv.
  - left. exists e. split; [done|].
    apply validate_inl in Hv. unfold invalidConfig.
    destruct (kind e); simpl in Hv; tauto.
  - right. apply validate_inr in Hv as (-> & -> & ?). done.
Qed.

(** ** Single steps *)

Ltac case_Transition f input :=
  unfold Transition;
  destruct (Transitions (config f) !! currentState f) as [?row|] eqn:?Hrow;
  [destruct (_ !! input) as [?next|] eqn:?Hnext|].

Lemma Transition_failure input f e f' :
  Transition input f = (Some e, f') -> f' = f /\ kind e = ErrNoTransition.
Proof. case_Transition f input; intros [= <- <-]; done. Qed.

Lemma Transition_success input f f' :
  Transition input f = (None, f') ->
  exists row t,
    Transitions (config f) !! currentState f = Some row /\ row !! input = Some t
    /\ config f' = config f /\ currentState f' = t
    /\ stateHistory f' = stateHistory f ++ [t]
    /\ alphabetSet f' = alphabetSet f /\ finalStateSet f' = finalStateSet f.
Proof.
  case_Transition f input; intros [= <-]; [|done..].
  exists row, next. done.
Qed.

(** ** Runs *)

Lemma Steps_deterministic f xs f1 f2 :
  Steps f xs f1 -> Steps f xs f2 -> f1 = f2.
Proof.
  intros H1. revert f2.
  induction H1 as [|f x f' rest f'' Hx _ IH]; inversion 1; subst; [done|].
  apply IH. congruence.
Qed.

Lemma Steps_run f xs f' :
  Steps f xs f' ->
  config f' = config f
  /\ alphabetSet f' = alphabetSet f /\ finalStateSet f' = finalStateSet f
  /\ exists visited,
      stateHistory f' = stateHistory f ++ visited
      /\ length visited = length xs
      /\ last (currentState f :: visited) = Some (currentState f').
Proof.
  induction 1 as [f|f x f1 rest f2 Hx _ IH].
  - split_and!; [done..|]. exists []. by rewrite app_nil_r.
  - apply Transition_success in Hx
      as (row & t & _ & _ & Hc & Hcur & Hh & Ha & Hf).
    destruct IH as (Hc' & Ha' & Hf' & visited & Hh' & Hl & Hcur').
    split_and!; [congruence..|].
    exists (t :: visited). split_and!.
    + rewrite Hh', Hh, <- app_assoc. done.
    + simpl. by rewrite Hl.
    + rewrite last_cons_cons, <- Hcur. done.
Qed.

Lemma ProcessFrom_None i inputs f f' :
  ProcessFrom i inputs f = (None, f') <-> Steps f inputs f'.
Proof.
  revert i f. induction inputs as [|x rest IH]; intros i f; simpl.
  - unfold ret. split; [intros [= <-]; constructor | inversion 1; done].
  - unfold bind. destruct (Transition x f) as [[e|] f1] eqn:Hx.
    + unfold ret. split; [done|]. inversion 1; congruence.
    + rewrite IH. split.
      * intros. by eapply Steps_cons.
      * inversion 1; subst. congruence.
Qed.

Lemma ProcessFrom_Some i inputs f err f' :
  ProcessFrom i inputs f = (Some err, f') <->
  exists k x e0,
    inputs !! k = Some x /\ Steps f (take k inputs) f'
    /\ Transition x f' = (Some e0, f') /\ err = errAtPosition (i + k) e0.
Proof.
  revert i f. induction inputs as [|x rest IH]; intros i f; simpl.
  - unfold ret. split; [done|]. intros (k & y & e0 & Hk & _). done.
  - unfold bind. destruct (Transition x f) as [[e|] f1] eqn:Hx.
    + unfold ret. destruct (Transition_failure _ _ _ _ Hx) as [-> _]. split.
      * intros [= <- <-]. exists 0%nat, x, e.
        rewrite Nat.add_0_r. split_and!; [done | constructor | done | done].
      * intros (k & y & e0 & Hk & Hst & Hy & ->). destruct k as [|k]; simpl in *.
        -- inversion Hst; subst. injection Hk as <-.
           rewrite Hx in Hy. injection Hy as <-. by rewrite Nat.add_0_r.
        -- inversion Hst; subst. congruence.
    + rewrite IH. split.
      * intros (k & y & e0 & Hk & Hst & Hy & ->). exists (S k), y, e0. simpl.
        split_and!; [done | by eapply Steps_cons | done | f_equal; lia].
      * intros (k & y & e0 & Hk & Hst & Hy & ->). destruct k as [|k]; simpl in *.
        -- inversion Hst; subst. injection Hk as <-. congruence.
        -- inversion Hst; subst. exists k, y, e0.
           split_and!; [done | congruence | done | f_equal; lia].
Qed.

Lemma Process_result inputs f :
  (exists f', Process inputs f = (None, f') /\ Steps f inputs f')
  \/ (exists k x e0 f',
        Process inputs f = (Some (errAtPosition k e0), f')
        /\ inputs !! k = Some x /\ Steps f (take k inputs) f'
        /\ Transition x f' = (Some e0, f')).
Proof.
  destruct (Process inputs f) as [[err|] f'] eqn:Hp.
  - right. apply ProcessFrom_Some in Hp as (k & x & e0 & ? & ? & ? & ->).
    by exists k, x, e0, f'.
  - left. exists f'. split; [done|]. by apply ProcessFrom_None in Hp.
Qed.

(** ** The run-state invariant *)

Lemma Reset_historyInvariant f :
  ~ invalidConfig (config f) -> historyInvariant (Reset f).2.
Proof.
  intros Hv. unfold historyInvariant; simpl. split_and!; [done..|].
  constructor; [|constructor].
  destruct (decide (InitialState (config f) ∈ States (config f))); [done|].
  exfalso. apply Hv. unfold invalidConfig, undeclaredInitial. tauto.
Qed.

Lemma Transition_historyInvariant input f :
  ~ invalidConfig (config f) -> historyInvariant f ->
  historyInvariant (Transition input f).2.
Proof.
  intros Hv Hinv. destruct (Transition input f) as [[e|] f'] eqn:Hx; simpl.
  - by destruct (Transition_failure _ _ _ _ Hx) as [-> _].
  - apply Transition_success in Hx
      as (row & t & Hrow & Ht & Hc & Hcur & Hh & _ & _).
    destruct Hinv as (Hne & Hhd & Hlast & Hall).
    unfold historyInvariant. rewrite Hc, Hcur, Hh. split_and!.
    + by destruct (stateHistory f).
    + destruct (stateHistory f); [done | exact Hhd].
    + apply last_snoc.
    + apply Forall_app. split; [done|]. constructor; [|constructor].
      destruct (decide (t ∈ States (config f))); [done|].
      exfalso. apply Hv. unfold invalidConfig, undeclaredDestination.
      do 6 right. by exists (currentState f), row, input, t.
Qed.

Lemma Transition_frame input f :
  config (Transition input f).2 = config f
  /\ alphabetSet (Transition input f).2 = alphabetSet f
  /\ finalStateSet (Transition input f).2 = finalStateSet f.
Proof. case_Transition f input; done. Qed.

Lemma Steps_historyInvariant f xs f' :
  Steps f xs f' ->
  ~ invalidConfig (config f) -> historyInvariant f -> historyInvariant f'.
Proof.
  induction 1 as [|f x f1 rest f2 Hx _ IH]; [done|].
  intros Hv Hinv.
  pose proof (Transition_historyInvariant x f Hv Hinv) as H1.
  pose proof (Transition_frame x f) as (Hc & _).
  rewrite Hx in H1, Hc. simpl in *. apply IH; [by rewrite Hc | done].
Qed.

Lemma Process_reaches inputs f :
  exists k, Steps f (take k inputs) (Process inputs f).2.
Proof.
  destruct (Process_result inputs f)
    as [(f' & -> & Hst)|(k & x & e0 & f' & -> & _ & Hst & _)].
  - exists (length inputs). by rewrite firstn_all.
  - by exists k.
Qed.

Lemma Reachable_invariant ord cfg f :
  Reachable ord cfg f ->
  config f = cfg
  /\ alphabetSet f = list_to_set (Alphabet cfg)
  /\ finalStateSet f = list_to_set (FinalStates cfg)
  /\ ~ invalidConfig cfg
  /\ historyInvariant f.
Proof.
  induction 1 as [f Hnew|f _ IH|f x _ IH|f xs _ IH|f xs _ IH].
  - unfold NewFSM in Hnew.
    destruct (validateAndBuildLookupSets ord cfg) as [|[a fs]] eqn:Hv; [done|].
    injection Hnew as <-. apply validate_inr in Hv as (-> & -> & Hv).
    split_and!; [done..|]. simpl.
    apply (Reset_historyInvariant
             {| config := cfg; currentState := InitialState cfg;
                stateHistory := []; alphabetSet := ∅; finalStateSet := ∅ |}).
    done.
  - destruct IH as (<- & Ha & Hf & Hv & Hinv).
    split_and!; [done..|]. by apply Reset_historyInvariant.
  - destruct IH as (<- & Ha & Hf & Hv & Hinv).
    destruct (Transition_frame x f) as (Hc & Ha' & Hf').
    split_and!; [congruence..| |].
    + done.
    + by apply Transition_historyInvariant.
  - destruct IH as (<- & Ha & Hf & Hv & Hinv).
    destruct (Process_reaches xs f) as [k Hst].
    destruct (Steps_run _ _ _ Hst) as (Hc & Ha' & Hf' & _).
    split_and!; [congruence..| |].
    + done.
    + by eapply Steps_historyInvariant.
  - destruct IH as (<- & Ha & Hf & Hv & Hinv).
    unfold Execute, bind. simpl.
    destruct (Process_reaches xs (Reset f).2) as [k Hst].
    destruct (Steps_run _ _ _ Hst) as (Hc & Ha' & Hf' & _).
    simpl in *.
    split_and!; [congruence..| |].
    + done.
    + eapply Steps_historyInvariant; [exact Hst | done |].
      by apply Reset_historyInvariant.
Qed.

(** * The claims about the engine *)

(** C1 (amended).  [NewFSM] returns an error, and no engine, exactly
    when the configuration is invalid: no states, no alphabet, an
    initial state that is not declared, a final state that is not
    declared, a row of the transition table whose source state is not
    declared, an entry whose symbol is not in the alphabet, or an entry
    whose destination state is not declared.  This holds for every order
    in which the table is visited.  The kind of the error returned names
    a condition that holds: [ErrNoStates], [ErrNoAlphabet],
    [ErrInvalidInitial], [ErrInvalidFinal], [ErrInvalidInput] for a
    symbol, and the one kind [ErrInvalidTransition] for a source state
    as well as for a destination state.  On success the engine holds the
    configuration, its current state is [InitialState] and its history
    is [[InitialState]]. *)
Theorem NewFSM_validation ord cfg :
  ((exists e, NewFSM ord cfg = inl e) <-> invalidConfig cfg)
  /\ ((exists f, NewFSM ord cfg = inr f) <-> ~ invalidConfig cfg)
  /\ (forall e, NewFSM ord cfg = inl e -> reportedCondition cfg (kind e))
  /\ (forall f, NewFSM ord cfg = inr f ->
        config f = cfg
        /\ CurrentState f = InitialState cfg
        /\ StateHistory f = [InitialState cfg]).
Proof.
  unfold NewFSM.
  destruct (validate_total ord cfg) as [(e & Hv & Hbad)|[Hv Hgood]]; rewrite Hv.
  - split_and!.
    + split; [done | by exists e].
    + split; [by intros [? ?] | done].
    + intros e' [= <-]. by apply (validate_inl ord).
    + done.
  - split_and!.
    + split; [by intros [? ?] | done].
    + split; [done | by eexists].
    + done.
    + by intros f [= <-].
Qed.

(** C2.  [Transition] on a symbol for which the table has no entry from
    the current state, because the state has no row or because its row
    has no entry for the symbol, returns a "no transition defined" error
    that carries the current state (and the symbol in the second case)
    and leaves the engine as it was; when the entry exists, it succeeds,
    the destination becomes the current state and is appended to the
    history. *)
Theorem Transition_spec f input :
  (Transitions (config f) !! CurrentState f = None ->
     Transition input f = (Some (errForState (CurrentState f)), f)
     /\ kind (errForState (Input := Input) (CurrentState f)) = ErrNoTransition)
  /\ (forall row,
        Transitions (config f) !! CurrentState f = Some row ->
        row !! input = None ->
        Transition input f
          = (Some (errFromStateWithInput (CurrentState f) input), f)
        /\ kind (errFromStateWithInput (CurrentState f) input) = ErrNoTransition)
  /\ (forall row t,
        Transitions (config f) !! CurrentState f = Some row ->
        row !! input = Some t ->
        exists f',
          Transition input f = (None, f')
          /\ CurrentState f' = t
          /\ StateHistory f' = StateHistory f ++ [t]
          /\ config f' = config f).
Proof.
  unfold CurrentState, StateHistory. split_and!.
  - intros Hrow. unfold Transition. by rewrite Hrow.
  - intros row Hrow Hx. unfold Transition. by rewrite Hrow, Hx.
  - intros row t Hrow Hx. unfold Transition. rewrite Hrow, Hx. by eexists.
Qed.

(** C3.  [Process] applies [Transition] to the symbols in order from the
    state the engine is in: it succeeds exactly when every transition
    succeeds, and it fails exactly when some symbol at position [k]
    fails after the [k] symbols before it were applied; the error then
    carries [k] and the error of that transition, and the engine is the
    one those [k] transitions left.  On the empty sequence it succeeds
    and changes nothing. *)
Theorem Process_spec inputs f :
  Process [] f = (None, f)
  /\ (forall f', Process inputs f = (None, f') <-> Steps f inputs f')
  /\ (forall err f',
        Process inputs f = (Some err, f') <->
        exists k x e0,
          inputs !! k = Some x
          /\ Steps f (take k inputs) f'
          /\ Transition x f' = (Some e0, f')
          /\ err = errAtPosition k e0)
  /\ (forall k f',
        Steps f (take k inputs) f' ->
        exists visited,
          StateHistory f' = StateHistory f ++ visited
          /\ length visited = length (take k inputs)).
Proof.
  split_and!.
  - done.
  - intros f'. apply ProcessFrom_None.
  - intros err f'. unfold Process. by rewrite ProcessFrom_Some.
  - intros k f' Hst.
    destruct (Steps_run _ _ _ Hst) as (_ & _ & _ & visited & ? & ? & _).
    by exists visited.
Qed.

(** C4.  [Execute] and [Reset] followed by [Process] return the same
    result and leave the same engine, hence the same current state and
    the same history. *)
Theorem Execute_is_Reset_then_Process inputs f :
  Execute inputs f = ResetThenProcess inputs f
  /\ (Execute inputs f).1 = (ResetThenProcess inputs f).1
  /\ CurrentState (Execute inputs f).2 = CurrentState (ResetThenProcess inputs f).2
  /\ StateHistory (Execute inputs f).2 = StateHistory (ResetThenProcess inputs f).2.
Proof.
  assert (Heq : Execute inputs f = ResetThenProcess inputs f).
  { unfold Execute, ResetThenProcess, bind. by destruct (Reset f) as [[] f1]. }
  by rewrite Heq.
Qed.

Lemma Process_history_fresh inputs f :
  freshlyReset f ->
  (forall f', Process inputs f = (None, f') ->
     length (StateHistory f') = S (length inputs)
     /\ StateHistory f' !! 0%nat = Some (InitialState (config f)))
  /\ (forall k e f', Process inputs f = (Some (errAtPosition k e), f') ->
        length (StateHistory f') = S k
        /\ exists fk,
            Process (take k inputs) f = (None, fk)
            /\ CurrentState f' = CurrentState fk
            /\ StateHistory f' !! k = Some (CurrentState fk)).
Proof.
  intros [Hcur Hhist]. unfold StateHistory, CurrentState. split.
  - intros f' Hp. apply ProcessFrom_None in Hp.
    destruct (Steps_run _ _ _ Hp) as (_ & _ & _ & visited & Hh & Hl & _).
    rewrite Hh, Hhist. simpl. by rewrite Hl.
  - intros k e f' Hp.
    apply ProcessFrom_Some in Hp as (k' & x & e0 & Hk & Hst & _ & Heq).
    injection Heq as <- <-.
    destruct (Steps_run _ _ _ Hst) as (_ & _ & _ & visited & Hh & Hl & Hlast).
    apply lookup_lt_Some in Hk.
    rewrite length_take, Nat.min_l in Hl by lia.
    split; [rewrite Hh, Hhist; simpl; by rewrite Hl|].
    exists f'. split_and!; [by apply ProcessFrom_None | done |].
    rewrite Hh, Hhist, <- Hcur, <- Hlast, last_lookup. simpl. by rewrite Hl.
Qed.

(** C5.  From a freshly reset engine, a [Process] that succeeds on [n]
    symbols leaves a history of length [n + 1] that starts with the
    initial state; one that fails at position [k] leaves a history of
    length [k + 1], and the current state is the state that processing
    the first [k] symbols reaches, which is the last entry of the
    history.  The same holds for [Execute] from any engine. *)
Theorem history_length_after_run inputs f :
  (freshlyReset f ->
     (forall f', Process inputs f = (None, f') ->
        length (StateHistory f') = S (length inputs)
        /\ StateHistory f' !! 0%nat = Some (InitialState (config f)))
     /\ (forall k e f', Process inputs f = (Some (errAtPosition k e), f') ->
           length (StateHistory f') = S k
           /\ exists fk,
               Process (take k inputs) f = (None, fk)
               /\ CurrentState f' = CurrentState fk
               /\ StateHistory f' !! k = Some (CurrentState fk)))
  /\ (forall f', Execute inputs f = (None, f') ->
        length (StateHistory f') = S (length inputs)
        /\ StateHistory f' !! 0%nat = Some (InitialState (config f)))
  /\ (forall k e f', Execute inputs f = (Some (errAtPosition k e), f') ->
        length (StateHistory f') = S k
        /\ exists fk,
            Execute (take k inputs) f = (None, fk)
            /\ CurrentState f' = CurrentState fk
            /\ StateHistory f' !! k = Some (CurrentState fk)).
Proof.
  split; [apply Process_history_fresh|].
  assert (Hfresh : freshlyReset (Reset f).2) by done.
  destruct (Process_history_fresh inputs _ Hfresh) as [Hok Hfail].
  split; [exact Hok | exact Hfail].
Qed.

(** C6.  [Reset] cannot fail; it sets the current state to the initial
    state and the history to the initial state alone, whatever the run
    state was, and any number of consecutive calls leaves the engine
    that one call leaves. *)
Theorem Reset_idempotent f :
  CurrentState (Reset f).2 = InitialState (config f)
  /\ StateHistory (Reset f).2 = [InitialState (config f)]
  /\ config (Reset f).2 = config f
  /\ forall n, Nat.iter (S n) (fun g => (Reset g).2) f = (Reset f).2.
Proof.
  split_and!; [done..|].
  induction n as [|n IH]; [done|].
  change (Nat.iter (S (S n)) (fun g => (Reset g).2) f)
    with ((Reset (Nat.iter (S n) (fun g => (Reset g).2) f)).2).
  by rewrite IH.
Qed.

(** C7.  On an engine built by [NewFSM] and driven by any sequence of
    operations, [IsInFinalState] is true exactly when the current state
    is one of the configured final states; with no final states it is
    false. *)
Theorem IsInFinalState_spec ord cfg f :
  Reachable ord cfg f ->
  (IsInFinalState f = true <-> CurrentState f ∈ FinalStates cfg)
  /\ (FinalStates cfg = [] -> IsInFinalState f = false).
Proof.
  intros Hr. apply Reachable_invariant in Hr as (_ & _ & Hfs & _).
  unfold IsInFinalState, CurrentState. rewrite Hfs.
  assert (Hiff : (if decide (size (list_to_set (FinalStates cfg) : gset State) = 0%nat)
                  then false
                  else bool_decide (currentState f ∈ (list_to_set (FinalStates cfg) : gset State)))
                 = true <-> currentState f ∈ FinalStates cfg).
  { destruct (decide _) as [Hz|Hnz].
    - apply size_empty_inv in Hz. split; [done|]. intros Hin.
      apply (elem_of_list_to_set (C := gset State)) in Hin.
      rewrite (Hz (currentState f)) in Hin. by apply elem_of_empty in Hin.
    - by rewrite bool_decide_eq_true, elem_of_list_to_set. }
  split; [exact Hiff|].
  intros Hnil. apply not_true_is_false. rewrite Hiff, Hnil. apply not_elem_of_nil.
Qed.

(** C10.  The engine that [NewFSM] returns, and every engine obtained
    from it by [Reset], [Transition], [Process] and [Execute], has a
    history that is not empty, starts with the initial state, ends with
    the current state and holds declared states only; each operation
    leaves such an engine. *)
Theorem historyInvariant_preserved ord cfg :
  (forall f, NewFSM ord cfg = inr f -> historyInvariant f)
  /\ (forall f, Reachable ord cfg f ->
        historyInvariant f
        /\ config f = cfg
        /\ CurrentState f ∈ States cfg
        /\ historyInvariant (Reset f).2
        /\ (forall input, historyInvariant (Transition input f).2)
        /\ (forall inputs, historyInvariant (Process inputs f).2)
        /\ (forall inputs, historyInvariant (Execute inputs f).2)).
Proof.
  assert (Hinv : forall f, Reachable ord cfg f -> historyInvariant f /\ config f = cfg).
  { intros f Hr. by apply Reachable_invariant in Hr as (? & _ & _ & _ & ?). }
  split.
  - intros f Hnew. by apply Hinv, Reachable_NewFSM.
  - intros f Hr. destruct (Hinv f Hr) as [Hf Hc]. split_and!; [done..| | | | |].
    + destruct Hf as (_ & _ & Hlast & Hall). rewrite <- Hc.
      rewrite Forall_forall in Hall. apply Hall.
      rewrite last_lookup in Hlast. by eapply list_elem_of_lookup_2.
    + by apply Hinv, Reachable_Reset.
    + intros x. by apply Hinv, Reachable_Transition.
    + intros xs. by apply Hinv, Reachable_Process.
    + intros xs. by apply Hinv, Reachable_Execute.
Qed.

End EngineProperties.

(** * Properties of the modulo-3 client *)

Import modthree.

Section ModThreeProperties.

Implicit Types (m : ModThreeGeneric) (s : string) (bs : list Z).

(** ** The configuration *)

Lemma modThreeConfig_valid : ~ invalidConfig modThreeConfig.
Proof.
  assert (Hv : validateAndBuildLookupSets listOrder modThreeConfig
               = inr (list_to_set (Alphabet modThreeConfig),
                      list_to_set (FinalStates modThreeConfig)))
    by (vm_compute; reflexivity).
  by apply validate_inr in Hv as (_ & _ & ?).
Qed.

Lemma NewFSM_modThreeConfig ord : exists f, NewFSM ord modThreeConfig = inr f.
Proof.
  unfold NewFSM.
  destruct (validate_total ord modThreeConfig) as [(e & _ & Hbad)|[-> _]].
  - by destruct modThreeConfig_valid.
  - by eexists.
Qed.

(** The table is δ(c, d) = (2c + d) mod 3 on the digit d of the symbol. *)
Lemma modThreeConfig_delta (c d : Z) :
  0 <= c < 3 -> 0 <= d < 2 ->
  exists row,
    Transitions modThreeConfig !! c = Some row
    /\ row !! (48 + d) = Some ((2 * c + d) mod 3).
Proof.
  intros Hc Hd.
  assert (Hcs : c = 0 \/ c = 1 \/ c = 2) by lia.
  assert (Hds : d = 0 \/ d = 1) by lia.
  destruct Hcs as [-> | [-> | ->]]; destruct Hds as [-> | ->];
    eexists; (split; [vm_compute; reflexivity | vm_compute; reflexivity]).
Qed.

Lemma Transition_delta f (acc b : Z) :
  config f = modThreeConfig -> currentState f = acc mod 3 -> binaryByte b ->
  exists f',
    Transition b f = (None, f')
    /\ config f' = modThreeConfig
    /\ currentState f' = (2 * acc + (b - 48)) mod 3.
Proof.
  intros Hc Hcur Hb. unfold binaryByte, Binary0, Binary1 in Hb.
  assert (Hr : 0 <= acc mod 3 < 3) by (apply Z.mod_pos_bound; lia).
  assert (Hd : 0 <= b - 48 < 2) by lia.
  destruct (modThreeConfig_delta (acc mod 3) (b - 48) Hr Hd) as (row & Hrow & Hnext).
  replace (48 + (b - 48)) with b in Hnext by lia.
  eexists. unfold Transition. rewrite Hc, Hcur, Hrow, Hnext.
  split_and!; [reflexivity | done |]. simpl.
  rewrite <- (Zplus_mod_idemp_l (2 * acc)), <- (Zmult_mod_idemp_r acc 2).
  by rewrite Zplus_mod_idemp_l.
Qed.

Lemma ProcessFrom_binary bs : forall i f (acc : Z),
  config f = modThreeConfig -> currentState f = acc mod 3 ->
  Forall binaryByte bs ->
  exists f',
    ProcessFrom i bs f = (None, f')
    /\ currentState f' = fold_left (fun v b => 2 * v + (b - 48)) bs acc mod 3.
Proof.
  induction bs as [|b rest IH]; intros i f acc Hc Hcur Hall; simpl.
  - by exists f.
  - inversion Hall as [|? ? Hb Hrest]; subst.
    destruct (Transition_delta f acc b Hc Hcur Hb) as (f1 & Hx & Hc1 & Hcur1).
    unfold bind. rewrite Hx. by apply IH.
Qed.

(** ** Strings *)

Lemma nextRune_binary (b : Z) rest :
  binaryByte b -> nextRune (b :: rest) = (b, 1%nat).
Proof. intros [-> | ->]; reflexivity. Qed.

Lemma decoderune_above (bs : list Z) : rune1Max < (decoderune bs).1.
Proof.
  unfold decoderune.
  repeat match goal with
  | |- context [match ?l with [] => _ | _ :: _ => _ end] => destruct l
  | |- context [if ?c then _ else _] => destruct c eqn:?
  end; simpl; try (vm_compute; reflexivity);
  repeat match goal with
  | Hc : _ && _ = true |- _ => apply andb_prop in Hc as [? ?]
  end;
  match goal with
  | Hc : (_ <? ?r) = true |- _ < ?r =>
      apply Z.ltb_lt in Hc; unfold rune1Max, rune2Max, rune3Max in *; lia
  end.
Qed.

Lemma nextRune_not_binary (c : Z) rest :
  ~ binaryByte c -> ~ binaryByte (nextRune (c :: rest)).1.
Proof.
  intros Hc. unfold nextRune. destruct (c <? runeSelf); [exact Hc|].
  pose proof (decoderune_above (c :: rest)) as Hr.
  unfold rune1Max in Hr. unfold binaryByte, Binary0, Binary1. lia.
Qed.

Lemma rangeFrom_cons k (c : Z) rest :
  rangeFrom k 0 (c :: rest)
  = (k, (nextRune (c :: rest)).1)
      :: rangeFrom (S k) (Nat.pred (nextRune (c :: rest)).2) rest.
Proof. cbn [rangeFrom]. by destruct (nextRune (c :: rest)). Qed.

Lemma rangeFrom_binary_cons k (b : Z) rest :
  binaryByte b -> rangeFrom k 0 (b :: rest) = (k, b) :: rangeFrom (S k) 0 rest.
Proof. intros [-> | ->]; reflexivity. Qed.

Lemma rangeFrom_binary bs : forall k,
  Forall binaryByte bs -> Forall (fun p => binaryByte p.2) (rangeFrom k 0 bs).
Proof.
  induction bs as [|b rest IH]; intros k Hall; [constructor|].
  inversion Hall as [|? ? Hb Hrest]; subst.
  rewrite (rangeFrom_binary_cons k b rest Hb). constructor; [done | by apply IH].
Qed.

Lemma rangeFrom_first_invalid pre (c : Z) rest : forall k,
  Forall binaryByte pre ->
  exists before after,
    rangeFrom k 0 (pre ++ c :: rest)
      = before ++ ((k + length pre)%nat, (nextRune (c :: rest)).1) :: after
    /\ length before = length pre
    /\ Forall (fun p => binaryByte p.2) before.
Proof.
  induction pre as [|b pre IH]; intros k Hall.
  - exists []. eexists. simpl app. rewrite rangeFrom_cons, Nat.add_0_r.
    split_and!; [reflexivity | done | constructor].
  - inversion Hall as [|? ? Hb Hpre]; subst.
    destruct (IH (S k) Hpre) as (before & after & Heq & Hlen & Hbin).
    exists ((k, b) :: before), after.
    rewrite <- app_comm_cons, (rangeFrom_binary_cons k b _ Hb), Heq.
    simpl. rewrite Hlen, Nat.add_succ_r.
    split_and!; [done | done | by constructor].
Qed.

Lemma first_invalid_byte bs :
  ~ Forall binaryByte bs ->
  exists pre c rest,
    bs = pre ++ c :: rest /\ Forall binaryByte pre /\ ~ binaryByte c.
Proof.
  induction bs as [|b rest IH]; intros Hnot.
  - destruct Hnot. constructor.
  - assert (Hdec : binaryByte b \/ ~ binaryByte b)
      by (unfold binaryByte, Binary0, Binary1; lia).
    destruct Hdec as [Hb|Hb].
    + destruct IH as (pre & c & rest' & -> & Hpre & Hc).
      { intros Hrest. apply Hnot. by constructor. }
      exists (b :: pre), c, rest'. split_and!; [done | by constructor | done].
    + exists [], b, rest. split_and!; [done | constructor | done].
Qed.

Lemma hasInvalidCharacter_not_binary s : hasInvalidCharacter s -> ~ isBinary s.
Proof.
  unfold hasInvalidCharacter, isBinary, rangeString. intros Hex Hall.
  apply (rangeFrom_binary _ 0%nat) in Hall.
  rewrite Forall_forall in Hall. apply Exists_exists in Hex as (p & Hin & Hp).
  by apply Hp, Hall.
Qed.

(** ** Parsing *)

Lemma ValidateInput_binary ord m (b : Z) :
  Reachable ord modThreeConfig (fsm m) ->
  ValidateInput b (fsm m) = true <-> binaryByte b.
Proof.
  intros Hr. apply Reachable_invariant in Hr as (_ & Ha & _).
  unfold ValidateInput. rewrite Ha, bool_decide_eq_true, elem_of_list_to_set.
  simpl. rewrite !elem_of_cons, elem_of_nil. unfold binaryByte. tauto.
Qed.

Lemma parseLoop_binary ord m bs :
  Reachable ord modThreeConfig (fsm m) ->
  forall k pre,
    Forall binaryByte bs -> length pre = k ->
    parseLoop m (rangeFrom k 0 bs) (pre ++ replicate (length bs) 0)
      = inr (pre ++ bs).
Proof.
  intros Hr. induction bs as [|b rest IH]; intros k pre Hall Hk.
  - done.
  - inversion Hall as [|? ? Hb Hrest]; subst.
    rewrite (rangeFrom_binary_cons _ b rest Hb). simpl.
    rewrite (proj2 (ValidateInput_binary ord m b Hr) Hb).
    rewrite insert_app_r_alt, Nat.sub_diag by lia. simpl.
    rewrite (cons_middle b pre), (cons_middle b pre rest), !app_assoc.
    apply IH; [done|]. rewrite length_app. simpl. lia.
Qed.

Lemma parseLoop_invalid ord m before i (char : Z) after :
  Reachable ord modThreeConfig (fsm m) ->
  Forall (fun p => binaryByte p.2) before -> ~ binaryByte char ->
  forall inputs,
    parseLoop m (before ++ (i, char) :: after) inputs
      = inl (errInvalidBinaryCharacter char i).
Proof.
  intros Hr Hbefore Hchar.
  induction Hbefore as [|[j b] before Hb _ IH]; intros inputs; simpl.
  - destruct (ValidateInput char (fsm m)) eqn:Hv; [|done].
    by apply (ValidateInput_binary ord) in Hv.
  - by rewrite (proj2 (ValidateInput_binary ord m b Hr) Hb).
Qed.

Lemma ParseInput_binary ord m s :
  Reachable ord modThreeConfig (fsm m) -> isBinary s ->
  ParseInput s m = inr (if decide (s = "" \/ s = "0") then None else Some (bytes s)).
Proof.
  intros Hr Hbin. unfold ParseInput. destruct (decide _); [done|].
  unfold rangeString, len.
  pose proof (parseLoop_binary ord m (bytes s) Hr 0%nat [] Hbin eq_refl) as Hp.
  simpl in Hp. by rewrite Hp.
Qed.

Lemma Execute_binary f bs :
  config f = modThreeConfig -> Forall binaryByte bs ->
  exists f',
    Execute bs f = (None, f')
    /\ CurrentState f' = fold_left (fun v b => 2 * v + (b - 48)) bs 0 mod 3.
Proof.
  intros Hc Hall. unfold Execute, bind, Process. simpl.
  apply ProcessFrom_binary; [done | by simpl; rewrite Hc | done].
Qed.

(** * The claims about the modulo-3 client *)

(** C8.  The wrapper is built without panic from the table
    δ(c, d) = (2c + d) mod 3 over the states 0, 1, 2 and the symbols
    '0', '1'.  On every string of the characters '0' and '1', the empty
    string included, [ComputeModThree] returns the value of the string
    as a binary numeral modulo 3, and true; when the engine runs (the
    string is neither empty nor "0"), that remainder is its current
    state.  On "110" the remainder is 0 and on "1101" it is 1. *)
Theorem ComputeModThree_correct ord :
  (exists m0, NewModThreeGeneric ord = Some m0
              /\ Reachable ord modThreeConfig (fsm m0))
  /\ (forall c d, 0 <= c < 3 -> 0 <= d < 2 ->
        exists row, Transitions modThreeConfig !! c = Some row
                    /\ row !! (48 + d) = Some ((2 * c + d) mod 3))
  /\ (forall m s,
        Reachable ord modThreeConfig (fsm m) -> isBinary s ->
        (ComputeModThree s m).1 = (binaryValue s mod 3, true)
        /\ Reachable ord modThreeConfig (fsm (ComputeModThree s m).2)
        /\ (s <> "" -> s <> "0" ->
             CurrentState (fsm (ComputeModThree s m).2) = binaryValue s mod 3))
  /\ (forall m,
        Reachable ord modThreeConfig (fsm m) ->
        (ComputeModThree "110" m).1 = (0, true)
        /\ CurrentState (fsm (ComputeModThree "110" m).2) = 0
        /\ (ComputeModThree "1101" m).1 = (1, true)
        /\ CurrentState (fsm (ComputeModThree "1101" m).2) = 1).
Proof.
  assert (Hmain : forall m s,
    Reachable ord modThreeConfig (fsm m) -> isBinary s ->
    (ComputeModThree s m).1 = (binaryValue s mod 3, true)
    /\ Reachable ord modThreeConfig (fsm (ComputeModThree s m).2)
    /\ (s <> "" -> s <> "0" ->
         CurrentState (fsm (ComputeModThree s m).2) = binaryValue s mod 3)).
  { intros m s Hr Hbin. unfold ComputeModThree.
    rewrite (ParseInput_binary ord m s Hr Hbin).
    destruct (decide (s = "" \/ s = "0")) as [Hs|Hs].
    - split_and!; [|done|tauto]. by destruct Hs as [-> | ->].
    - pose proof (Reachable_Execute ord modThreeConfig _ (bytes s) Hr) as Hr'.
      destruct (Reachable_invariant _ _ _ Hr) as (Hc & _).
      destruct (Execute_binary (fsm m) (bytes s) Hc Hbin) as (f' & Hex & Hcur).
      rewrite Hex in Hr' |- *. simpl. unfold binaryValue.
      split_and!; [by rewrite Hcur | done | done]. }
  split_and!.
  - unfold NewModThreeGeneric.
    destruct (NewFSM_modThreeConfig ord) as [f Hf]. rewrite Hf.
    eexists. split; [done|]. by apply Reachable_NewFSM.
  - apply modThreeConfig_delta.
  - exact Hmain.
  - intros m Hr.
    assert (H110 : isBinary "110")
      by (repeat constructor; unfold binaryByte; vm_compute; tauto).
    assert (H1101 : isBinary "1101")
      by (repeat constructor; unfold binaryByte; vm_compute; tauto).
    destruct (Hmain m "110" Hr H110) as (-> & _ & ->); [| done | done].
    destruct (Hmain m "1101" Hr H1101) as (-> & _ & ->); [| done | done].
    done.
Qed.

(** C9.  On a string with a character other than '0' and '1',
    [ParseInput] returns the error that carries the first such character
    and its position, which is both the number of characters before it
    and its byte offset; [ComputeModThree] then returns (0, false) and
    [IsDivisibleByThree] false, and the wrapper and its engine are left
    as they were: [Execute] is not called. *)
Theorem ParseInput_rejects_invalid ord m s :
  Reachable ord modThreeConfig (fsm m) ->
  hasInvalidCharacter s ->
  exists before i char after,
    rangeString s = before ++ (i, char) :: after
    /\ Forall (fun p => binaryByte p.2) before
    /\ ~ binaryByte char
    /\ i = length before
    /\ ParseInput s m = inl (errInvalidBinaryCharacter char i)
    /\ ComputeModThree s m = ((0, false), m)
    /\ IsDivisibleByThree s m = (false, m).
Proof.
  intros Hr Hinv. apply hasInvalidCharacter_not_binary in Hinv as Hnot.
  destruct (first_invalid_byte (bytes s) Hnot) as (pre & c & rest & Hs & Hpre & Hc).
  destruct (rangeFrom_first_invalid pre c rest 0%nat Hpre)
    as (before & after & Hrange & Hlen & Hbefore).
  rewrite <- Hs in Hrange. simpl in Hrange.
  pose proof (nextRune_not_binary c rest Hc) as Hchar.
  assert (Hparse : ParseInput s m
            = inl (errInvalidBinaryCharacter (nextRune (c :: rest)).1 (length pre))).
  { unfold ParseInput. destruct (decide (s = "" \/ s = "0")) as [Hs0|_].
    - exfalso. apply Hnot. unfold isBinary.
      destruct Hs0 as [-> | ->]; repeat constructor.
    - unfold rangeString. rewrite Hrange.
      by rewrite (parseLoop_invalid ord m before _ _ after Hr Hbefore Hchar). }
  exists before, (length pre), (nextRune (c :: rest)).1, after.
  split_and!; [done | done | done | done | done | |].
  - unfold ComputeModThree. by rewrite Hparse.
  - unfold IsDivisibleByThree, ComputeModThree. by rewrite Hparse.
Qed.

End ModThreeProperties.

(** * The claims on the configurations of the test suite *)

Import fsm_test.

Lemma NewFSM_validConfig : NewFSM listOrder validConfig = inr validEngine.
Proof. vm_compute. reflexivity. Defined.

Lemma NewFSM_noFinalConfig : NewFSM listOrder noFinalConfig = inr noFinalEngine.
Proof. vm_compute. reflexivity. Defined.

Lemma NewModThreeGeneric_fresh : NewModThreeGeneric listOrder = Some freshModThree.
Proof. vm_compute. reflexivity. Defined.

Lemma Reachable_freshModThree :
  Reachable listOrder modThreeConfig (fsm freshModThree).
Proof. apply Reachable_NewFSM. vm_compute. reflexivity. Defined.

(** C1, the claim as stated fails: a configuration whose only defect is
    an undeclared source state and one whose only defect is an
    undeclared destination state are both refused with an error of the
    kind [ErrInvalidTransition], the two conditions are not reported as
    distinct kinds. *)
Lemma source_and_destination_share_kind :
  exists e1 e2,
    NewFSM listOrder fromUndefinedState = inl e1
    /\ NewFSM listOrder toUndefinedState = inl e2
    /\ undeclaredSource fromUndefinedState
    /\ ~ undeclaredDestination fromUndefinedState
    /\ undeclaredDestination toUndefinedState
    /\ ~ undeclaredSource toUndefinedState
    /\ kind e1 = kind e2
    /\ errors_Is e1 ErrInvalidTransition = true
    /\ errors_Is e2 ErrInvalidTransition = true.
Proof.
  exists (errFromState "B"), (errToState "B").
  assert (HB : "B" ∉ ["A"]) by (by intros ?%list_elem_of_singleton).
  assert (HA : "A" ∈ ["A"]) by (by apply list_elem_of_singleton).
  split_and!.
  - vm_compute. reflexivity.
  - vm_compute. reflexivity.
  - exists "B", {[ 48 := "A" ]}. by split.
  - intros (s & row & x & t & Hs & Hx & Hout). simpl in Hs.
    apply lookup_singleton_Some in Hs as [<- <-].
    apply lookup_singleton_Some in Hx as [<- <-].
    by apply Hout.
  - exists "A", {[ 48 := "B" ]}, 48, "B". by split_and!.
  - intros (s & row & Hs & Hout). simpl in Hs.
    apply lookup_singleton_Some in Hs as [<- <-].
    by apply Hout.
  - reflexivity.
  - reflexivity.
  - reflexivity.
Qed.

(** The engine of [validConfig] after the symbol '0': in state B. *)
Lemma Transition_validEngine :
  Transition 48 validEngine
  = (None, {| config := validConfig;
              currentState := "B";
              stateHistory := ["A"; "B"];
              alphabetSet := list_to_set [48; 49];
              finalStateSet := list_to_set ["B"] |}).
Proof. vm_compute. reflexivity. Defined.

Lemma Reachable_validEngine : Reachable listOrder validConfig validEngine.
Proof. apply Reachable_NewFSM. exact NewFSM_validConfig. Defined.

(** C1 at the configurations "transition to undefined state" and "valid
    config" of the test suite. *)
Lemma NewFSM_validation_witness :
  invalidConfig toUndefinedState
  /\ reportedCondition toUndefinedState ErrInvalidTransition
  /\ ~ invalidConfig validConfig
  /\ CurrentState validEngine = "A"
  /\ StateHistory validEngine = ["A"].
Proof.
  destruct (NewFSM_validation listOrder toUndefinedState) as (Hbad & _ & Hrep & _).
  destruct (NewFSM_validation listOrder validConfig) as (_ & Hgood & _ & Hok).
  assert (Herr : NewFSM listOrder toUndefinedState = inl (errToState "B"))
    by (vm_compute; reflexivity).
  split_and!.
  - apply Hbad. by exists (errToState "B").
  - exact (Hrep _ Herr).
  - apply Hgood. exists validEngine. exact NewFSM_validConfig.
  - exact (proj1 (proj2 (Hok _ NewFSM_validConfig))).
  - exact (proj2 (proj2 (Hok _ NewFSM_validConfig))).
Defined.

(** C2 on the engine of [validConfig]: a symbol without entry from A,
    the symbol '0' from A to B, and B without a row. *)
Lemma Transition_spec_witness :
  Transition 49 validEngine
    = (Some (errFromStateWithInput "A" 49), validEngine)
  /\ (exists f', Transition 48 validEngine = (None, f')
                 /\ CurrentState f' = "B"
                 /\ StateHistory f' = ["A"; "B"])
  /\ Transition 48 (Transition 48 validEngine).2
     = (Some (errForState "B"), (Transition 48 validEngine).2).
Proof.
  split_and!.
  - destruct (Transition_spec validEngine 49) as (_ & Hmiss & _).
    apply (Hmiss {[ 48 := "B" ]}); vm_compute; reflexivity.
  - destruct (Transition_spec validEngine 48) as (_ & _ & Hok).
    destruct (Hok {[ 48 := "B" ]} "B") as (f' & Hx & Hcur & Hh & _);
      [vm_compute; reflexivity | vm_compute; reflexivity |].
    by exists f'.
  - destruct (Transition_spec (Transition 48 validEngine).2 48) as (Hnone & _).
    apply Hnone. vm_compute. reflexivity.
Defined.

(** C3: ["00"] on the engine of [validConfig] fails at position 1, in
    the state B the first symbol reached. *)
Lemma Process_spec_witness :
  Process [48; 48] validEngine
  = (Some (errAtPosition 1 (errForState "B")), (Transition 48 validEngine).2).
Proof.
  destruct (Process_spec [48; 48] validEngine) as (_ & _ & Hfail & _).
  apply Hfail. exists 1%nat, 48, (errForState "B"). split_and!.
  - reflexivity.
  - eapply Steps_cons; [|apply Steps_nil]. vm_compute. reflexivity.
  - vm_compute. reflexivity.
  - reflexivity.
Defined.

(** C5: a success on one symbol and a failure at position 1 both leave
    a history of two states. *)
Lemma history_length_after_run_witness :
  freshlyReset validEngine
  /\ length (StateHistory (Process [48] validEngine).2) = 2%nat
  /\ length (StateHistory (Process [48; 48] validEngine).2) = 2%nat
  /\ length (StateHistory (Execute [48; 48] (Transition 48 validEngine).2).2) = 2%nat.
Proof.
  assert (Hfresh : freshlyReset validEngine) by (split; reflexivity).
  destruct (history_length_after_run [48] validEngine) as ((Hok & _) & _);
    [exact Hfresh|].
  destruct (history_length_after_run [48; 48] validEngine) as ((_ & Hfail) & _);
    [exact Hfresh|].
  destruct (history_length_after_run [48; 48] (Transition 48 validEngine).2)
    as (_ & _ & Hfail').
  split_and!.
  - exact Hfresh.
  - apply (Hok (Process [48] validEngine).2). vm_compute. reflexivity.
  - apply (Hfail 1%nat (errForState "B") (Process [48; 48] validEngine).2).
    vm_compute. reflexivity.
  - apply (Hfail' 1%nat (errForState "B")
             (Execute [48; 48] (Transition 48 validEngine).2).2).
    vm_compute. reflexivity.
Defined.

(** C7: no final state declared, and the final state B reached. *)
Lemma IsInFinalState_spec_witness :
  Reachable listOrder noFinalConfig noFinalEngine
  /\ IsInFinalState noFinalEngine = false
  /\ Reachable listOrder validConfig (Transition 48 validEngine).2
  /\ IsInFinalState (Transition 48 validEngine).2 = true.
Proof.
  assert (Hr0 : Reachable listOrder noFinalConfig noFinalEngine)
    by (apply Reachable_NewFSM; exact NewFSM_noFinalConfig).
  assert (Hr1 : Reachable listOrder validConfig (Transition 48 validEngine).2)
    by (apply Reachable_Transition; exact Reachable_validEngine).
  split_and!.
  - exact Hr0.
  - apply (IsInFinalState_spec listOrder noFinalConfig noFinalEngine Hr0).
    reflexivity.
  - exact Hr1.
  - apply (IsInFinalState_spec listOrder validConfig _ Hr1).
    apply list_elem_of_singleton. reflexivity.
Defined.

(** C10 on the engine of [validConfig]. *)
Lemma historyInvariant_preserved_witness :
  historyInvariant validEngine
  /\ CurrentState validEngine ∈ States validConfig
  /\ historyInvariant (Process [48; 48] validEngine).2
  /\ historyInvariant (Reset (Transition 48 validEngine).2).2.
Proof.
  destruct (historyInvariant_preserved listOrder validConfig) as [Hnew Hreach].
  destruct (Hreach validEngine Reachable_validEngine)
    as (_ & _ & Hcur & _ & _ & Hproc & _).
  destruct (Hreach (Transition 48 validEngine).2
              (Reachable_Transition _ _ _ 48 Reachable_validEngine))
    as (_ & _ & _ & Hreset & _).
  split_and!.
  - exact (Hnew validEngine NewFSM_validConfig).
  - exact Hcur.
  - exact (Hproc [48; 48]).
  - exact Hreset.
Defined.

(** C8 on "1101": 13 mod 3 = 1. *)
Lemma ComputeModThree_correct_witness :
  isBinary "1101"
  /\ (ComputeModThree "1101" freshModThree).1 = (13 mod 3, true)
  /\ CurrentState (fsm (ComputeModThree "1101" freshModThree).2) = 1.
Proof.
  assert (Hbin : isBinary "1101")
    by (repeat constructor; unfold binaryByte; vm_compute; tauto).
  destruct (ComputeModThree_correct listOrder) as (_ & _ & Hall & _).
  destruct (Hall freshModThree "1101" Reachable_freshModThree Hbin)
    as (Hres & _ & Hcur).
  split_and!.
  - exact Hbin.
  - exact Hres.
  - apply Hcur; discriminate.
Defined.

(** C9 on "102". *)
Lemma ParseInput_rejects_invalid_witness :
  hasInvalidCharacter "102"
  /\ (exists char i, ParseInput "102" freshModThree
                     = inl (errInvalidBinaryCharacter char i))
  /\ ComputeModThree "102" freshModThree = ((0, false), freshModThree)
  /\ IsDivisibleByThree "102" freshModThree = (false, freshModThree).
Proof.
  assert (Hinv : hasInvalidCharacter "102").
  { unfold hasInvalidCharacter.
    change (rangeString "102") with [(0%nat, 49); (1%nat, 48); (2%nat, 50)].
    do 2 apply Exists_cons_tl. apply Exists_cons_hd.
    unfold binaryByte; vm_compute. intros [Heq|Heq]; discriminate Heq. }
  destruct (ParseInput_rejects_invalid listOrder freshModThree "102"
              Reachable_freshModThree Hinv)
    as (before & i & char & after & _ & _ & _ & _ & Hparse & Hcomp & Hdiv).
  split_and!.
  - exact Hinv.
  - by exists char, i.
  - exact Hcomp.
  - exact Hdiv.
Defined.

(** * Further properties of the engine *)

Section EngineExtras.

Context {State Input : Type}.
Context `{Countable State, Countable Input}.

Implicit Types (cfg : @FSMConfig State Input _ _ _ _).
Implicit Types (f g : @FSM State Input _ _ _ _).
Implicit Types (ord : @RangeOrder State Input _ _ _ _).
Implicit Types (e : @error State Input).

(** ** Helpers *)

Lemma Transition_lookup input f :
  Transition input f
  = match lookupTransition (config f) (currentState f) input with
    | Some t => (None, {| config := config f;
                          currentState := t;
                          stateHistory := stateHistory f ++ [t];
                          alphabetSet := alphabetSet f;
                          finalStateSet := finalStateSet f |})
    | None => ((Transition input f).1, f)
    end.
Proof.
  unfold Transition, lookupTransition.
  destruct (Transitions (config f) !! currentState f) as [row|]; [|done].
  by destruct (row !! input).
Qed.

Lemma Transition_None_lookup input f f' :
  Transition input f = (None, f') ->
  lookupTransition (config f) (currentState f) input = Some (currentState f').
Proof.
  intros Hx. apply Transition_success in Hx as (row & t & Hrow & Ht & _ & -> & _).
  unfold lookupTransition. by rewrite Hrow.
Qed.

Lemma lookupTransition_valid cfg s x t :
  ~ invalidConfig cfg -> lookupTransition cfg s x = Some t ->
  s ∈ States cfg /\ x ∈ Alphabet cfg /\ t ∈ States cfg.
Proof.
  intros Hv. unfold lookupTransition.
  destruct (Transitions cfg !! s) as [row|] eqn:Hrow; [|done]. intros Hx.
  split_and!.
  - destruct (decide (s ∈ States cfg)); [done|]. destruct Hv.
    do 4 right. left. by exists s, row.
  - destruct (decide (x ∈ Alphabet cfg)); [done|]. destruct Hv.
    do 5 right. left. by exists s, row, x, t.
  - destruct (decide (t ∈ States cfg)); [done|]. destruct Hv.
    do 6 right. by exists s, row, x, t.
Qed.

(** A property that the constructor establishes and that [Reset] and
    every successful [Transition] keep holds of every engine. *)
Lemma Reachable_closure ord cfg (P : FSM -> Prop) :
  (forall f, NewFSM ord cfg = inr f -> P f) ->
  (forall f, Reachable ord cfg f -> P f -> P (Reset f).2) ->
  (forall f input f', Reachable ord cfg f -> P f ->
     Transition input f = (None, f') -> P f') ->
  forall f, Reachable ord cfg f -> P f.
Proof.
  intros Hnew Hreset Hstep.
  assert (Hsteps : forall f xs f', Steps f xs f' ->
            Reachable ord cfg f -> P f -> P f').
  { induction 1 as [|f x f1 rest f2 Hx _ IH]; [done|]. intros Hr Hp.
    apply IH.
    - pose proof (Reachable_Transition ord cfg f x Hr) as Hr1.
      by rewrite Hx in Hr1.
    - by eapply Hstep. }
  induction 1 as [f Hf|f Hr IH|f x Hr IH|f xs Hr IH|f xs Hr IH].
  - by apply Hnew.
  - by apply Hreset.
  - destruct (Transition x f) as [[e|] f'] eqn:Hx; simpl.
    + by destruct (Transition_failure _ _ _ _ Hx) as [-> _].
    + by eapply Hstep.
  - destruct (Process_reaches xs f) as [k Hst]. by eapply Hsteps.
  - unfold Execute, bind. simpl.
    destruct (Process_reaches xs (Reset f).2) as [k Hst].
    eapply Hsteps; [exact Hst | by apply Reachable_Reset | by apply Hreset].
Qed.

Lemma ProcessFrom_shift i inputs f :
  ProcessFrom i inputs f
  = match Process inputs f with
    | (Some (errAtPosition k e0), f') => (Some (errAtPosition (i + k) e0), f')
    | r => r
    end.
Proof.
  destruct (Process_result inputs f)
    as [(f' & Hp & Hst)|(k & x & e0 & f' & Hp & Hk & Hst & Hx)]; rewrite Hp.
  - by apply ProcessFrom_None.
  - apply ProcessFrom_Some. by exists k, x, e0.
Qed.

Lemma ProcessFrom_app i xs ys f :
  ProcessFrom i (xs ++ ys) f
  = match ProcessFrom i xs f with
    | (None, f1) => ProcessFrom (i + length xs) ys f1
    | r => r
    end.
Proof.
  revert i f. induction xs as [|x xs IH]; intros i f; simpl.
  - unfold ret. by rewrite Nat.add_0_r.
  - unfold bind. destruct (Transition x f) as [[e|] f1]; [done|].
    rewrite IH. by replace (S i + length xs)%nat with (i + S (length xs))%nat by lia.
Qed.

(** ** Alphabet and transitions *)

(** X1.  On every engine built by [NewFSM], in whatever run state,
    [ValidateInput] is true exactly for the symbols listed in
    [config.Alphabet]; the transitions play no part. *)
Theorem ValidateInput_alphabet ord cfg f (input : Input) :
  Reachable ord cfg f ->
  ValidateInput input f = true <-> input ∈ Alphabet cfg.
Proof.
  intros Hr. apply Reachable_invariant in Hr as (_ & Ha & _).
  unfold ValidateInput. by rewrite Ha, bool_decide_eq_true, elem_of_list_to_set.
Qed.

(** X2.  On an engine built by [NewFSM], a symbol that [ValidateInput]
    refuses never makes a transition: a successful [Transition] is on a
    symbol of the alphabet, and a successful [Process] has consumed
    symbols of the alphabet only. *)
Theorem Transition_only_on_alphabet ord cfg f :
  Reachable ord cfg f ->
  (forall input f', Transition input f = (None, f') ->
     ValidateInput input f = true)
  /\ (forall input, ValidateInput input f = false ->
        exists e, Transition input f = (Some e, f))
  /\ (forall inputs f', Process inputs f = (None, f') ->
        Forall (fun x => x ∈ Alphabet cfg) inputs).
Proof.
  intros Hr.
  assert (Hone : forall g input g', Reachable ord cfg g ->
            Transition input g = (None, g') -> input ∈ Alphabet cfg).
  { intros g x g' Hg Hx. apply Transition_None_lookup in Hx.
    apply Reachable_invariant in Hg as (Hc & _ & _ & Hv & _). rewrite Hc in Hx.
    by apply (lookupTransition_valid cfg _ _ _ Hv) in Hx as (_ & ? & _). }
  assert (Hval : forall input, input ∈ Alphabet cfg -> ValidateInput input f = true).
  { intros x Hx. apply Reachable_invariant in Hr as (_ & Ha & _).
    unfold ValidateInput. by rewrite Ha, bool_decide_eq_true, elem_of_list_to_set. }
  split_and!.
  - intros x f' Hx. by eapply Hval, Hone.
  - intros x Hno. destruct (Transition x f) as [[e|] f'] eqn:Hx.
    + destruct (Transition_failure _ _ _ _ Hx) as [-> _]. by exists e.
    + apply Hone in Hx; [|done]. apply Hval in Hx. congruence.
  - intros xs f' Hp. apply ProcessFrom_None in Hp. clear Hval.
    induction Hp as [|g x g1 rest g2 Hx _ IH]; [constructor|].
    constructor; [by eapply Hone|]. apply IH.
    pose proof (Reachable_Transition ord cfg g x Hr) as Hr1. by rewrite Hx in Hr1.
Qed.

(** X3.  When the table has an entry for every declared state and every
    symbol of the alphabet, [Process] and [Execute] cannot fail on
    symbols of the alphabet. *)
Theorem complete_table_never_fails ord cfg f inputs :
  Reachable ord cfg f ->
  completeTable cfg ->
  Forall (fun x => x ∈ Alphabet cfg) inputs ->
  (exists f', Process inputs f = (None, f'))
  /\ (exists f', Execute inputs f = (None, f')).
Proof.
  intros Hr Hcomplete Hall.
  assert (Hproc : forall g, Reachable ord cfg g -> exists g', Process inputs g = (None, g')).
  { induction Hall as [|x rest Hx _ IH]; intros g Hg.
    - by exists g.
    - destruct (Reachable_invariant _ _ _ Hg) as (Hc & _ & _ & _ & Hinv).
      destruct Hinv as (_ & _ & Hlast & Hstates).
      assert (Hcur : currentState g ∈ States cfg).
      { rewrite Forall_forall in Hstates. rewrite <- Hc. apply Hstates.
        rewrite last_lookup in Hlast. by eapply list_elem_of_lookup_2. }
      destruct (Hcomplete _ _ Hcur Hx) as [t Ht].
      pose proof (Reachable_Transition ord cfg g x Hg) as Hr1.
      rewrite Transition_lookup, Hc, Ht in Hr1. simpl in Hr1.
      destruct (IH _ Hr1) as [g' Hg'].
      exists g'. apply ProcessFrom_None. apply ProcessFrom_None in Hg'.
      eapply Steps_cons; [|exact Hg']. by rewrite Transition_lookup, Hc, Ht. }
  split; [by apply Hproc|].
  unfold Execute, bind. simpl. by apply Hproc, Reachable_Reset.
Qed.

(** X4.  [Process] computes the extended transition function of the
    automaton from the current state: it succeeds exactly when the table
    has every entry on the way, and the current state is then the state
    the symbols lead to. *)
Theorem Process_extendedTransition inputs f :
  ((Process inputs f).1 = None
     <-> is_Some (extendedTransition (config f) (CurrentState f) inputs))
  /\ (forall t, extendedTransition (config f) (CurrentState f) inputs = Some t ->
        CurrentState (Process inputs f).2 = t).
Proof.
  unfold Process, CurrentState. generalize 0%nat.
  revert f. induction inputs as [|x rest IH]; intros f i; simpl.
  - split; [done|]. by intros t [= <-].
  - unfold bind. rewrite Transition_lookup.
    destruct (lookupTransition (config f) (currentState f) x) as [t|] eqn:Hx.
    + apply IH.
    + unfold Transition, lookupTransition in *.
      destruct (Transitions (config f) !! currentState f) as [row|];
        [rewrite Hx|]; simpl; (split; [split; [done | by intros [? ?]] | done]).
Qed.

(** ** Construction *)

(** X5.  The order in which the validation loop visits the transition
    table changes neither whether [NewFSM] accepts a configuration nor
    the engine it returns. *)
Theorem NewFSM_order_independent ord1 ord2 cfg :
  (forall f, NewFSM ord1 cfg = inr f <-> NewFSM ord2 cfg = inr f)
  /\ ((exists e, NewFSM ord1 cfg = inl e) <-> (exists e, NewFSM ord2 cfg = inl e)).
Proof.
  unfold NewFSM.
  destruct (validate_total ord1 cfg) as [(e1 & -> & Hbad)|[-> Hgood]];
    destruct (validate_total ord2 cfg) as [(e2 & -> & Hbad')|[-> Hgood']];
    try tauto.
  split; [done|]. split; intros _; by eexists.
Qed.

Lemma validateFinalStates_first (stateSet : gset State) pre s rest :
  Forall (fun q => q ∈ stateSet) pre -> s ∉ stateSet ->
  validateFinalStates (Input := Input) stateSet (pre ++ s :: rest)
  = Some (errFinalState s).
Proof.
  intros Hpre Hs. induction Hpre as [|q pre Hq _ IH]; simpl.
  - by destruct (decide (s ∈ stateSet)).
  - by destruct (decide (q ∈ stateSet)).
Qed.

(** X6.  The checks of [NewFSM] run in a fixed order and the first that
    fails decides the error, whatever else is wrong and whatever the
    order of the table: no states, then no alphabet, then the initial
    state, then the final states in the order of the slice, the error
    naming the first one that is not declared. *)
Theorem NewFSM_error_precedence ord cfg :
  (States cfg = [] -> NewFSM ord cfg = inl (errSentinel ErrNoStates))
  /\ (States cfg <> [] -> Alphabet cfg = [] ->
        NewFSM ord cfg = inl (errSentinel ErrNoAlphabet))
  /\ (States cfg <> [] -> Alphabet cfg <> [] ->
        InitialState cfg ∉ States cfg ->
        NewFSM ord cfg = inl (errSentinel ErrInvalidInitial))
  /\ (forall pre s rest,
        States cfg <> [] -> Alphabet cfg <> [] ->
        InitialState cfg ∈ States cfg ->
        FinalStates cfg = pre ++ s :: rest ->
        Forall (fun q => q ∈ States cfg) pre -> s ∉ States cfg ->
        NewFSM ord cfg = inl (errFinalState s)).
Proof.
  unfold NewFSM, validateAndBuildLookupSets. split_and!.
  - intros ->. done.
  - intros Hs ->. destruct (decide (length (States cfg) = 0%nat)) as [Hz|_]; [|done].
    by apply nil_length_inv in Hz.
  - intros Hs Ha Hi.
    destruct (decide (length (States cfg) = 0%nat)) as [Hz|_];
      [by apply nil_length_inv in Hz|].
    destruct (decide (length (Alphabet cfg) = 0%nat)) as [Hz|_];
      [by apply nil_length_inv in Hz|].
    destruct (decide (InitialState cfg ∈ _)) as [Hin|_]; [|done].
    by rewrite elem_of_list_to_set in Hin.
  - intros pre s rest Hs Ha Hi Hf Hpre Hout.
    destruct (decide (length (States cfg) = 0%nat)) as [Hz|_];
      [by apply nil_length_inv in Hz|].
    destruct (decide (length (Alphabet cfg) = 0%nat)) as [Hz|_];
      [by apply nil_length_inv in Hz|].
    destruct (decide (InitialState cfg ∈ _)) as [_|Hin];
      [|by rewrite elem_of_list_to_set in Hin].
    rewrite validateFinalStates_guard, Hf, (validateFinalStates_first _ pre s rest).
    + done.
    + eapply Forall_impl; [exact Hpre|]. intros q Hq. by rewrite elem_of_list_to_set.
    + by rewrite elem_of_list_to_set.
Qed.

(** ** Runs *)

(** X7.  [Process] never touches the configuration or the two lookup
    sets, and it only appends to the history: one state for each symbol
    consumed, as many as there are symbols exactly when it succeeds. *)
Theorem Process_frame inputs f :
  config (Process inputs f).2 = config f
  /\ alphabetSet (Process inputs f).2 = alphabetSet f
  /\ finalStateSet (Process inputs f).2 = finalStateSet f
  /\ exists visited,
      StateHistory (Process inputs f).2 = StateHistory f ++ visited
      /\ (length visited <= length inputs)%nat
      /\ (length visited = length inputs <-> (Process inputs f).1 = None).
Proof.
  unfold StateHistory.
  destruct (Process_result inputs f)
    as [(f' & Hp & Hst)|(k & x & e0 & f' & Hp & Hk & Hst & Hx)]; rewrite Hp; simpl;
    destruct (Steps_run _ _ _ Hst) as (Hc & Ha & Hf & visited & Hh & Hl & _).
  - split_and!; [done..|]. exists visited. split_and!; [done | lia | done].
  - apply lookup_lt_Some in Hk. rewrite length_take in Hl.
    split_and!; [done..|]. exists visited. split_and!; [done | lia |].
    split; [lia | done].
Qed.

(** X8.  Processing a sequence in two parts is processing it at once:
    a failure in the first part is the failure of the whole, and after
    a first part that succeeds the second part decides, its failure
    position counted from the start of the whole. *)
Theorem Process_app xs ys f :
  (forall e f1, Process xs f = (Some e, f1) ->
     Process (xs ++ ys) f = (Some e, f1))
  /\ (forall f1, Process xs f = (None, f1) ->
        (Process (xs ++ ys) f).2 = (Process ys f1).2
        /\ ((Process (xs ++ ys) f).1 = None <-> (Process ys f1).1 = None)
        /\ (forall k e0, (Process ys f1).1 = Some (errAtPosition k e0) ->
              (Process (xs ++ ys) f).1
              = Some (errAtPosition (length xs + k) e0))).
Proof.
  assert (Happ : Process (xs ++ ys) f
                 = match Process xs f with
                   | (None, f1) => ProcessFrom (length xs) ys f1
                   | r => r
                   end)
    by (unfold Process; by rewrite ProcessFrom_app).
  rewrite Happ. split.
  - intros e f1 ->. done.
  - intros f1 ->. rewrite ProcessFrom_shift.
    destruct (Process_result ys f1)
      as [(f' & -> & _)|(k & x & e0 & f' & -> & _)]; simpl.
    + split_and!; [done | done | by intros ? ? [=]].
    + split_and!; [done | done |]. by intros k' e' [= <- <-].
Qed.

(** X9.  The outcome of [Execute] depends on the configuration alone:
    two engines built from the same configuration, in whatever run
    state each is, return the same result and end as the same engine. *)
Theorem Execute_forgets_run_state ord1 ord2 cfg f g inputs :
  Reachable ord1 cfg f -> Reachable ord2 cfg g ->
  Execute inputs f = Execute inputs g.
Proof.
  intros Hf Hg.
  apply Reachable_invariant in Hf as (Hcf & Haf & Hff & _).
  apply Reachable_invariant in Hg as (Hcg & Hag & Hfg & _).
  unfold Execute, bind, Reset. by rewrite Hcf, Hcg, Haf, Hag, Hff, Hfg.
Qed.

Lemma historyWalk_snoc cfg (history : list State) a x t :
  historyWalk cfg history -> last history = Some a ->
  lookupTransition cfg a x = Some t ->
  historyWalk cfg (history ++ [t]).
Proof.
  intros Hwalk Hlast Hx i p q Hi HSi.
  rewrite last_lookup in Hlast.
  destruct (decide (S i < length history)%nat) as [Hlt|Hge].
  - rewrite lookup_app_l in Hi, HSi by lia. by eapply Hwalk.
  - assert (HSi' := HSi). apply lookup_lt_Some in HSi'.
    rewrite length_app in HSi'. simpl in HSi'.
    assert (Hlen : length history = S i) by lia.
    rewrite lookup_app_l in Hi by lia.
    rewrite lookup_app_r in HSi by lia.
    rewrite Hlen, Nat.sub_diag in HSi. injection HSi as <-.
    rewrite Hlen in Hlast. simpl in Hlast. rewrite Hi in Hlast.
    injection Hlast as ->. by exists x.
Qed.

(** X10.  The history of an engine built by [NewFSM] is a walk in the
    automaton: every state of the history after the first is reached
    from the state before it by an entry of the table. *)
Theorem history_is_walk ord cfg f :
  Reachable ord cfg f -> historyWalk cfg (StateHistory f).
Proof.
  intros Hr. unfold StateHistory.
  cut (config f = cfg /\ last (stateHistory f) = Some (currentState f)
       /\ historyWalk cfg (stateHistory f)); [tauto|].
  revert f Hr. apply Reachable_closure.
  - intros f Hnew. unfold NewFSM in Hnew.
    destruct (validateAndBuildLookupSets ord cfg) as [|[a fs]]; [done|].
    injection Hnew as <-. simpl. split_and!; [done..|].
    intros i p q _ Hq. by destruct i.
  - intros f _ (Hc & _ & _). simpl. split_and!; [done..|].
    intros i p q _ Hq. by destruct i.
  - intros f x f' _ (Hc & Hlast & Hwalk) Hx.
    pose proof (Transition_None_lookup _ _ _ Hx) as Hlook.
    apply Transition_success in Hx as (_ & t & _ & _ & Hc' & Hcur & Hh & _).
    rewrite Hc', Hh, Hcur. rewrite Hcur, Hc in Hlook.
    split_and!; [done | apply last_snoc | by eapply historyWalk_snoc].
Qed.

(** ** Errors *)

(** X11.  Every error that [Transition], [Process] or [Execute] returns
    is recognised by [errors.Is] as [ErrNoTransition], also under the
    position that [Process] adds; no error of [NewFSM] is. *)
Theorem run_errors_are_ErrNoTransition :
  (forall input f e f', Transition input f = (Some e, f') ->
     errors_Is e ErrNoTransition = true)
  /\ (forall inputs f e f', Process inputs f = (Some e, f') ->
        errors_Is e ErrNoTransition = true)
  /\ (forall inputs f e f', Execute inputs f = (Some e, f') ->
        errors_Is e ErrNoTransition = true)
  /\ (forall ord cfg e, NewFSM ord cfg = inl e ->
        errors_Is e ErrNoTransition = false).
Proof.
  assert (Hproc : forall inputs f e f', Process inputs f = (Some e, f') ->
            errors_Is e ErrNoTransition = true).
  { intros xs f e f' Hp.
    apply ProcessFrom_Some in Hp as (k & x & e0 & _ & _ & Hx & ->).
    apply Transition_failure in Hx as [_ Hk].
    rewrite errors_Is_kind. simpl. by rewrite Hk, bool_decide_eq_true. }
  split_and!.
  - intros x f e f' Hx. apply Transition_failure in Hx as [_ Hk].
    by rewrite errors_Is_kind, Hk, bool_decide_eq_true.
  - exact Hproc.
  - intros xs f e f'. unfold Execute, bind. simpl. apply Hproc.
  - intros ord cfg e Hnew. unfold NewFSM in Hnew.
    destruct (validateAndBuildLookupSets ord cfg) as [e'|[a fs]] eqn:Hv; [|done].
    injection Hnew as ->. apply validate_inl in Hv.
    rewrite errors_Is_kind, bool_decide_eq_false. intros Hk. by rewrite Hk in Hv.
Qed.

(** ** Building the table *)

Lemma AddTransition_lookup from (input : Input) to cfg s x :
  lookupTransition (AddTransition from input to cfg) s x
  = if decide (s = from /\ x = input) then Some to
    else lookupTransition cfg s x.
Proof.
  unfold lookupTransition, AddTransition. simpl.
  destruct (decide (s = from)) as [->|Hs].
  - rewrite lookup_insert_eq.
    destruct (decide (x = input)) as [->|Hx].
    + rewrite lookup_insert_eq. by rewrite decide_True.
    + rewrite lookup_insert_ne by done. rewrite decide_False by tauto.
      by destruct (Transitions cfg !! from).
  - rewrite lookup_insert_ne by done. by rewrite decide_False by tauto.
Qed.

(** X12.  After [AddTransition(from, input, to)] the table leads from
    [from] on [input] to [to], replacing an earlier entry for the pair
    if there was one, also when the table or the row of [from] did not
    exist; every other entry, and the rest of the configuration, is as
    before. *)
Theorem AddTransition_spec from (input : Input) to cfg :
  lookupTransition (AddTransition from input to cfg) from input = Some to
  /\ (forall s x, (s, x) <> (from, input) ->
        lookupTransition (AddTransition from input to cfg) s x
        = lookupTransition cfg s x)
  /\ States (AddTransition from input to cfg) = States cfg
  /\ Alphabet (AddTransition from input to cfg) = Alphabet cfg
  /\ InitialState (AddTransition from input to cfg) = InitialState cfg
  /\ FinalStates (AddTransition from input to cfg) = FinalStates cfg.
Proof.
  split_and!; [| |done..].
  - rewrite AddTransition_lookup. by rewrite decide_True.
  - intros s x Hne. rewrite AddTransition_lookup.
    rewrite decide_False; [done|]. intros [-> ->]. by apply Hne.
Qed.

Lemma lookupTransition_Some cfg s x t :
  lookupTransition cfg s x = Some t <->
  exists row, Transitions cfg !! s = Some row /\ row !! x = Some t.
Proof.
  unfold lookupTransition. destruct (Transitions cfg !! s) as [row|].
  - split; [by exists row | by intros (? & [= <-] & ?)].
  - split; [done | by intros (? & ? & ?)].
Qed.

(** X13.  Adding a transition to a valid configuration leaves it valid
    exactly when the source and the destination are declared states and
    the symbol is in the alphabet. *)
Theorem AddTransition_valid from (input : Input) to cfg :
  ~ invalidConfig cfg ->
  ~ invalidConfig (AddTransition from input to cfg)
  <-> from ∈ States cfg /\ input ∈ Alphabet cfg /\ to ∈ States cfg.
Proof.
  intros Hv. split.
  - intros Hv'.
    apply (lookupTransition_valid _ from input to Hv').
    rewrite AddTransition_lookup. by rewrite decide_True.
  - intros (Hfrom & Hinput & Hto)
      [Hc|[Hc|[Hc|[Hc|[(s & row & Hs & Hout)
        |[(s & row & x & t & Hs & Hx & Hout)|(s & row & x & t & Hs & Hx & Hout)]]]]]].
    + apply Hv. by left.
    + apply Hv. by right; left.
    + apply Hv. by do 2 right; left.
    + apply Hv. by do 3 right; left.
    + simpl in Hs, Hout. destruct (decide (s = from)) as [->|Hne]; [done|].
      rewrite lookup_insert_ne in Hs by done.
      apply Hv. do 4 right; left. by exists s, row.
    + simpl in Hout.
      assert (Hl : lookupTransition (AddTransition from input to cfg) s x = Some t)
        by (apply lookupTransition_Some; by exists row).
      rewrite AddTransition_lookup in Hl.
      destruct (decide (s = from /\ x = input)) as [[-> ->]|_]; [done|].
      by apply (lookupTransition_valid _ _ _ _ Hv) in Hl as (_ & ? & _).
    + simpl in Hout.
      assert (Hl : lookupTransition (AddTransition from input to cfg) s x = Some t)
        by (apply lookupTransition_Some; by exists row).
      rewrite AddTransition_lookup in Hl.
      destruct (decide (s = from /\ x = input)) as [[-> ->]|_].
      * by injection Hl as <-.
      * by apply (lookupTransition_valid _ _ _ _ Hv) in Hl as (_ & _ & ?).
Qed.

(** X14.  An engine built from a configuration to which
    [AddTransition(from, input, to)] was applied moves from [from] on
    [input] to [to]; when [from] is the initial state, [Execute] on
    that one symbol ends in [to] with the history of the two states. *)
Theorem AddTransition_then_run ord from (input : Input) to cfg f :
  Reachable ord (AddTransition from input to cfg) f ->
  (CurrentState f = from ->
     exists f', Transition input f = (None, f')
                /\ CurrentState f' = to
                /\ StateHistory f' = StateHistory f ++ [to])
  /\ (from = InitialState cfg ->
        exists f', Execute [input] f = (None, f')
                   /\ CurrentState f' = to
                   /\ StateHistory f' = [InitialState cfg; to]).
Proof.
  intros Hr. apply Reachable_invariant in Hr as (Hc & _).
  unfold CurrentState, StateHistory. split.
  - intros Hcur. eexists. rewrite Transition_lookup, Hc, Hcur.
    rewrite AddTransition_lookup. rewrite decide_True by done. done.
  - intros ->. eexists. unfold Execute, bind, Process. simpl. unfold bind.
    rewrite Transition_lookup. simpl. rewrite Hc. simpl.
    rewrite AddTransition_lookup. rewrite decide_True by done. done.
Qed.

End EngineExtras.

(** * Further properties of the modulo-3 clients *)

Section ModThreeExtras.

Implicit Types (s : string) (bs : list Z).

(** ** Helpers that need the alphabet and the table only *)

Lemma ValidateInput_alpha (f : @FSM Z Z _ _ _ _) (b : Z) :
  alphabetSet f = list_to_set [Binary0; Binary1] ->
  ValidateInput b f = true <-> binaryByte b.
Proof.
  intros Ha. unfold ValidateInput.
  rewrite Ha, bool_decide_eq_true, elem_of_list_to_set.
  rewrite !elem_of_cons, elem_of_nil. unfold binaryByte. tauto.
Qed.

Lemma parseLoop_binary_alpha (m : ModThreeGeneric) bs :
  alphabetSet (fsm m) = list_to_set [Binary0; Binary1] ->
  forall k pre,
    Forall binaryByte bs -> length pre = k ->
    parseLoop m (rangeFrom k 0 bs) (pre ++ replicate (length bs) 0)
      = inr (pre ++ bs).
Proof.
  intros Ha. induction bs as [|b rest IH]; intros k pre Hall Hk.
  - done.
  - inversion Hall as [|? ? Hb Hrest]; subst.
    rewrite (rangeFrom_binary_cons _ b rest Hb). simpl.
    rewrite (proj2 (ValidateInput_alpha (fsm m) b Ha) Hb).
    rewrite insert_app_r_alt, Nat.sub_diag by lia. simpl.
    rewrite (cons_middle b pre), (cons_middle b pre rest), !app_assoc.
    apply IH; [done|]. rewrite length_app. simpl. lia.
Qed.

Lemma parseLoop_invalid_alpha (m : ModThreeGeneric) before i (char : Z) after :
  alphabetSet (fsm m) = list_to_set [Binary0; Binary1] ->
  Forall (fun p => binaryByte p.2) before -> ~ binaryByte char ->
  forall inputs,
    parseLoop m (before ++ (i, char) :: after) inputs
      = inl (errInvalidBinaryCharacter char i).
Proof.
  intros Ha Hbefore Hchar.
  induction Hbefore as [|[j b] before Hb _ IH]; intros inputs; simpl.
  - destruct (ValidateInput char (fsm m)) eqn:Hv; [|done].
    by apply ValidateInput_alpha in Hv.
  - by rewrite (proj2 (ValidateInput_alpha (fsm m) b Ha) Hb).
Qed.

Lemma ParseInput_binary_alpha (m : ModThreeGeneric) s :
  alphabetSet (fsm m) = list_to_set [Binary0; Binary1] -> isBinary s ->
  ParseInput s m
  = inr (if decide (s = "" \/ s = "0") then None else Some (bytes s)).
Proof.
  intros Ha Hbin. unfold ParseInput. destruct (decide _); [done|].
  unfold rangeString, len.
  pose proof (parseLoop_binary_alpha m (bytes s) Ha 0%nat [] Hbin eq_refl) as Hp.
  simpl in Hp. by rewrite Hp.
Qed.

Lemma ParseInput_not_binary_alpha (m : ModThreeGeneric) s :
  alphabetSet (fsm m) = list_to_set [Binary0; Binary1] -> ~ isBinary s ->
  exists char i,
    ParseInput s m = inl (errInvalidBinaryCharacter char i)
    /\ ~ binaryByte char.
Proof.
  intros Ha Hnot.
  destruct (first_invalid_byte (bytes s) Hnot) as (pre & c & rest & Hs & Hpre & Hc).
  destruct (rangeFrom_first_invalid pre c rest 0%nat Hpre)
    as (before & after & Hrange & Hlen & Hbefore).
  rewrite <- Hs in Hrange. simpl in Hrange.
  pose proof (nextRune_not_binary c rest Hc) as Hchar.
  exists (nextRune (c :: rest)).1, (length pre). split; [|done].
  unfold ParseInput. destruct (decide (s = "" \/ s = "0")) as [Hs0|_].
  - exfalso. apply Hnot. unfold isBinary.
    destruct Hs0 as [-> | ->]; repeat constructor.
  - unfold rangeString. rewrite Hrange.
    by rewrite (parseLoop_invalid_alpha m before _ _ after Ha Hbefore Hchar).
Qed.

Lemma isBinary_dec s : isBinary s \/ ~ isBinary s.
Proof.
  unfold isBinary. induction (bytes s) as [|b bs IH]; [left; constructor|].
  assert (Hb : binaryByte b \/ ~ binaryByte b)
    by (unfold binaryByte, Binary0, Binary1; lia).
  destruct Hb as [Hb|Hb]; [destruct IH as [IH|IH]|].
  - left. by constructor.
  - right. by inversion 1.
  - right. by inversion 1.
Qed.

Lemma Execute_binary_table (f : @FSM Z Z _ _ _ _) bs :
  Transitions (config f) = Transitions modThreeConfig ->
  InitialState (config f) = 0 ->
  Forall binaryByte bs ->
  exists f',
    Execute bs f = (None, f')
    /\ CurrentState f' = fold_left (fun v b => 2 * v + (b - 48)) bs 0 mod 3
    /\ config f' = config f
    /\ alphabetSet f' = alphabetSet f
    /\ finalStateSet f' = finalStateSet f.
Proof.
  intros Htable Hinit Hall.
  assert (Hgen : forall i (g : @FSM Z Z _ _ _ _) (acc : Z),
    Transitions (config g) = Transitions modThreeConfig ->
    currentState g = acc mod 3 ->
    exists g', ProcessFrom i bs g = (None, g')
      /\ currentState g' = fold_left (fun v b => 2 * v + (b - 48)) bs acc mod 3).
  { clear f Htable Hinit.
    induction Hall as [|b rest Hb _ IH]; intros i g acc Htable Hcur; simpl.
    - by exists g.
    - unfold binaryByte, Binary0, Binary1 in Hb.
      assert (Hr : 0 <= acc mod 3 < 3) by (apply Z.mod_pos_bound; lia).
      assert (Hd : 0 <= b - 48 < 2) by lia.
      destruct (modThreeConfig_delta (acc mod 3) (b - 48) Hr Hd)
        as (row & Hrow & Hnext).
      replace (48 + (b - 48)) with b in Hnext by lia.
      unfold bind, Transition. rewrite Htable, Hcur, Hrow, Hnext.
      apply IH; [done|]. simpl.
      rewrite <- (Zplus_mod_idemp_l (2 * acc)), <- (Zmult_mod_idemp_r acc 2).
      by rewrite Zplus_mod_idemp_l. }
  destruct (Hgen 0%nat (Reset f).2 0) as (f' & Hp & Hcur); [done | by simpl; rewrite Hinit |].
  exists f'. split_and!; [exact Hp | done | | |].
  all: apply ProcessFrom_None in Hp; by destruct (Steps_run _ _ _ Hp) as (? & ? & ? & _).
Qed.

Lemma Reachable_modthree ord (m : ModThreeGeneric) :
  Reachable ord modThreeConfig (fsm m) ->
  alphabetSet (fsm m) = list_to_set [Binary0; Binary1]
  /\ Transitions (config (fsm m)) = Transitions modThreeConfig
  /\ InitialState (config (fsm m)) = 0.
Proof. intros Hr. by apply Reachable_invariant in Hr as (-> & -> & _). Qed.

Lemma ComputeModThree_cases ord (m : ModThreeGeneric) s :
  Reachable ord modThreeConfig (fsm m) ->
  (isBinary s ->
     (ComputeModThree s m).1 = (binaryValue s mod 3, true)
     /\ Reachable ord modThreeConfig (fsm (ComputeModThree s m).2)
     /\ (s <> "" -> s <> "0" ->
          CurrentState (fsm (ComputeModThree s m).2) = binaryValue s mod 3))
  /\ (~ isBinary s -> ComputeModThree s m = ((0, false), m)).
Proof.
  intros Hr. destruct (Reachable_modthree ord m Hr) as (Ha & Htable & Hinit).
  unfold ComputeModThree. split.
  - intros Hbin. rewrite (ParseInput_binary_alpha m s Ha Hbin).
    destruct (decide (s = "" \/ s = "0")) as [Hs|Hs].
    + split_and!; [|done|tauto]. by destruct Hs as [-> | ->].
    + pose proof (Reachable_Execute ord modThreeConfig _ (bytes s) Hr) as Hr'.
      destruct (Execute_binary_table (fsm m) (bytes s) Htable Hinit Hbin)
        as (f' & Hex & Hcur & _).
      rewrite Hex in Hr' |- *. simpl. unfold binaryValue.
      split_and!; [by rewrite Hcur | done | done].
  - intros Hnot.
    destruct (ParseInput_not_binary_alpha m s Ha Hnot) as (char & i & -> & _).
    done.
Qed.

(** ** The wrapper of the [modthree] package *)

(** X15.  [ParseInput] succeeds exactly on the strings of '0' and '1':
    it returns the nil slice for the empty string and for "0", and
    otherwise one symbol for each character, the character itself; on
    every other string it returns an error about a character that is
    neither '0' nor '1'. *)
Theorem ParseInput_accepts_binary ord (m : ModThreeGeneric) s :
  Reachable ord modThreeConfig (fsm m) ->
  (isBinary s ->
     ParseInput s m
     = inr (if decide (s = "" \/ s = "0") then None else Some (bytes s)))
  /\ (~ isBinary s ->
       exists char i,
         ParseInput s m = inl (errInvalidBinaryCharacter char i)
         /\ ~ binaryByte char)
  /\ ((exists r, ParseInput s m = inr r) <-> isBinary s).
Proof.
  intros Hr. destruct (Reachable_modthree ord m Hr) as (Ha & _).
  split_and!.
  - by apply ParseInput_binary_alpha.
  - by apply ParseInput_not_binary_alpha.
  - split.
    + intros [r Hp]. destruct (isBinary_dec s) as [|Hnot]; [done|].
      destruct (ParseInput_not_binary_alpha m s Ha Hnot) as (? & ? & Hq & _).
      congruence.
    + intros Hbin. eexists. by apply ParseInput_binary_alpha.
Qed.

(** X16.  [ComputeModThree] reports success exactly on the strings of
    '0' and '1'; the remainder it returns is 0, 1 or 2 and depends on
    the string alone, not on what the engine ran before; on failure it
    returns remainder 0 and leaves the wrapper as it was. *)
Theorem ComputeModThree_ok_iff_binary ord (m : ModThreeGeneric) s :
  Reachable ord modThreeConfig (fsm m) ->
  ((ComputeModThree s m).1.2 = true <-> isBinary s)
  /\ 0 <= (ComputeModThree s m).1.1 < 3
  /\ ((ComputeModThree s m).1.2 = false -> ComputeModThree s m = ((0, false), m))
  /\ (forall ord' (m' : ModThreeGeneric),
        Reachable ord' modThreeConfig (fsm m') ->
        (ComputeModThree s m').1 = (ComputeModThree s m).1).
Proof.
  intros Hr. destruct (ComputeModThree_cases ord m s Hr) as [Hyes Hno].
  destruct (isBinary_dec s) as [Hbin|Hnot].
  - destruct (Hyes Hbin) as (Hres & _). rewrite Hres. simpl.
    split_and!;
      [by split | by apply Z.mod_pos_bound | by apply Z.mod_pos_bound
      | by intros [=] |].
    intros ord' m' Hr'.
    by destruct (ComputeModThree_cases ord' m' s Hr') as [Hyes' _];
      destruct (Hyes' Hbin) as (-> & _).
  - rewrite (Hno Hnot). simpl. split_and!; [by split | lia | lia | done |].
    intros ord' m' Hr'.
    destruct (ComputeModThree_cases ord' m' s Hr') as [_ Hno'].
    by rewrite (Hno' Hnot).
Qed.

(** X17.  [IsDivisibleByThree] is true exactly on the strings of '0'
    and '1' whose value as a binary numeral is a multiple of three; the
    wrapper it leaves can be used again. *)
Theorem IsDivisibleByThree_iff ord (m : ModThreeGeneric) s :
  Reachable ord modThreeConfig (fsm m) ->
  ((IsDivisibleByThree s m).1 = true
     <-> isBinary s /\ binaryValue s mod 3 = 0)
  /\ Reachable ord modThreeConfig (fsm (IsDivisibleByThree s m).2).
Proof.
  intros Hr. destruct (ComputeModThree_cases ord m s Hr) as [Hyes Hno].
  unfold IsDivisibleByThree.
  destruct (isBinary_dec s) as [Hbin|Hnot].
  - destruct (Hyes Hbin) as (Hres & Hr' & _).
    destruct (ComputeModThree s m) as [[remainder ok] m']. simpl in *.
    injection Hres as -> ->. simpl. rewrite Z.eqb_eq. tauto.
  - rewrite (Hno Hnot). simpl. split; [|done]. split; [done | tauto].
Qed.

(** X18.  On the empty string and on "0" the wrapper answers without
    calling the engine, which is not reset: after a run on a string of
    '0' and '1', [ComputeModThree] on "0" returns remainder 0 while the
    engine still shows the state and the history of the earlier run. *)
Theorem ComputeModThree_zero_keeps_run ord (m : ModThreeGeneric) s :
  Reachable ord modThreeConfig (fsm m) ->
  isBinary s -> s <> "" -> s <> "0" ->
  let m1 := (ComputeModThree s m).2 in
  ComputeModThree "0" m1 = ((0, true), m1)
  /\ ComputeModThree "" m1 = ((0, true), m1)
  /\ CurrentState (fsm (ComputeModThree "0" m1).2) = binaryValue s mod 3
  /\ length (StateHistory (fsm (ComputeModThree "0" m1).2)) = S (len s).
Proof.
  intros Hr Hbin Hne Hne0 m1.
  destruct (ComputeModThree_cases ord m s Hr) as [Hyes _].
  destruct (Hyes Hbin) as (_ & _ & Hcur). specialize (Hcur Hne Hne0).
  split_and!; [done | done | exact Hcur |].
  change (ComputeModThree "0" m1).2 with m1. subst m1.
  destruct (Reachable_modthree ord m Hr) as (Ha & Htable & Hinit).
  unfold ComputeModThree. rewrite (ParseInput_binary_alpha m s Ha Hbin).
  rewrite decide_False by tauto.
  destruct (Execute_binary_table (fsm m) (bytes s) Htable Hinit Hbin)
    as (f' & Hex & _).
  rewrite Hex. simpl.
  apply ProcessFrom_None in Hex.
  destruct (Steps_run _ _ _ Hex) as (_ & _ & _ & visited & Hh & Hl & _).
  unfold StateHistory. rewrite Hh. simpl. by rewrite Hl.
Qed.

(** ** The wrapper of the [main] package *)

Lemma main_parseLoop (m : main.ModThreeGeneric) chars inputs :
  main.parseLoop m chars inputs
  = parseLoop {| fsm := main.fsm m |} chars inputs.
Proof.
  revert inputs. induction chars as [|[i char] rest IH]; intros inputs; simpl.
  - done.
  - by destruct (ValidateInput char (main.fsm m)).
Qed.

Lemma main_ParseInput (m : main.ModThreeGeneric) s :
  main.ParseInput s m = ParseInput s {| fsm := main.fsm m |}.
Proof. unfold main.ParseInput, ParseInput. by rewrite main_parseLoop. Qed.

Lemma main_modThreeConfig_valid : ~ invalidConfig main.modThreeConfig.
Proof.
  assert (Hv : validateAndBuildLookupSets listOrder main.modThreeConfig
               = inr (list_to_set (Alphabet main.modThreeConfig),
                      list_to_set (FinalStates main.modThreeConfig)))
    by (vm_compute; reflexivity).
  by apply validate_inr in Hv as (_ & _ & ?).
Qed.

Lemma Reachable_main ord (m : main.ModThreeGeneric) :
  Reachable ord main.modThreeConfig (main.fsm m) ->
  alphabetSet (main.fsm m) = list_to_set [Binary0; Binary1]
  /\ finalStateSet (main.fsm m) = {[ 0 ]}
  /\ Transitions (config (main.fsm m)) = Transitions modThreeConfig
  /\ InitialState (config (main.fsm m)) = 0.
Proof.
  intros Hr. apply Reachable_invariant in Hr as (-> & -> & -> & _).
  split_and!; [done | | done | done]. simpl. set_solver.
Qed.

Lemma main_IsDivisibleByThree_cases ord (m : main.ModThreeGeneric) s :
  Reachable ord main.modThreeConfig (main.fsm m) ->
  (isBinary s ->
     (main.IsDivisibleByThree s m).1 = true
     /\ Reachable ord main.modThreeConfig (main.fsm (main.IsDivisibleByThree s m).2)
     /\ (s <> "" -> s <> "0" ->
          CurrentState (main.fsm (main.IsDivisibleByThree s m).2)
          = binaryValue s mod 3))
  /\ (~ isBinary s -> main.IsDivisibleByThree s m = (false, m)).
Proof.
  intros Hr. destruct (Reachable_main ord m Hr) as (Ha & _ & Htable & Hinit).
  unfold main.IsDivisibleByThree. rewrite main_ParseInput. split.
  - intros Hbin.
    rewrite (ParseInput_binary_alpha {| fsm := main.fsm m |} s Ha Hbin).
    destruct (decide (s = "" \/ s = "0")) as [Hs|Hs].
    + split_and!; [done | done | tauto].
    + pose proof (Reachable_Execute ord main.modThreeConfig _ (bytes s) Hr) as Hr'.
      destruct (Execute_binary_table (main.fsm m) (bytes s) Htable Hinit Hbin)
        as (f' & Hex & Hcur & _).
      rewrite Hex in Hr' |- *. simpl. unfold binaryValue.
      split_and!; [done | done | done].
  - intros Hnot.
    destruct (ParseInput_not_binary_alpha {| fsm := main.fsm m |} s Ha Hnot)
      as (char & i & -> & _).
    done.
Qed.

(** X19.  The wrapper of the [main] package is built without panic
    whatever the order of the table, and its [IsDivisibleByThree] is
    true exactly on the strings of '0' and '1': it reports that the
    string was parsed and run, and does not look at the remainder. *)
Theorem main_IsDivisibleByThree_iff_binary ord :
  (exists m0, main.NewModThreeGeneric ord = Some m0
              /\ Reachable ord main.modThreeConfig (main.fsm m0))
  /\ (forall (m : main.ModThreeGeneric) s,
        Reachable ord main.modThreeConfig (main.fsm m) ->
        ((main.IsDivisibleByThree s m).1 = true <-> isBinary s)
        /\ Reachable ord main.modThreeConfig
             (main.fsm (main.IsDivisibleByThree s m).2)).
Proof.
  split.
  - unfold main.NewModThreeGeneric.
    destruct (NewFSM ord main.modThreeConfig) as [e|f] eqn:Hnew.
    + exfalso. unfold NewFSM in Hnew.
      destruct (validate_total ord main.modThreeConfig)
        as [(e' & _ & Hbad)|[Hv _]].
      * by apply main_modThreeConfig_valid.
      * by rewrite Hv in Hnew.
    + eexists. split; [done|]. by apply Reachable_NewFSM.
  - intros m s Hr.
    destruct (main_IsDivisibleByThree_cases ord m s Hr) as [Hyes Hno].
    destruct (isBinary_dec s) as [Hbin|Hnot].
    + destruct (Hyes Hbin) as (-> & ? & _). by split.
    + rewrite (Hno Hnot). simpl. by split.
Qed.

(** X20.  After [IsDivisibleByThree] of the [main] package has run the
    engine on a string of '0' and '1', the current state is the value
    of the string modulo 3 and [IsInFinalState] tells whether the value
    is a multiple of three. *)
Theorem main_final_state_iff_divisible ord (m : main.ModThreeGeneric) s :
  Reachable ord main.modThreeConfig (main.fsm m) ->
  isBinary s -> s <> "" -> s <> "0" ->
  CurrentState (main.fsm (main.IsDivisibleByThree s m).2) = binaryValue s mod 3
  /\ (IsInFinalState (main.fsm (main.IsDivisibleByThree s m).2) = true
      <-> binaryValue s mod 3 = 0).
Proof.
  intros Hr Hbin Hne Hne0.
  destruct (main_IsDivisibleByThree_cases ord m s Hr) as [Hyes _].
  destruct (Hyes Hbin) as (_ & Hr' & Hcur). specialize (Hcur Hne Hne0).
  split; [exact Hcur|].
  destruct (Reachable_main ord _ Hr') as (_ & Hfs & _).
  unfold IsInFinalState. unfold CurrentState in Hcur. rewrite Hfs, Hcur.
  rewrite size_singleton. simpl.
  by rewrite bool_decide_eq_true, elem_of_singleton.
Qed.

End ModThreeExtras.

(** * The further properties on concrete engines *)

Import more_test.

Lemma Reachable_noFinalEngine : Reachable listOrder noFinalConfig noFinalEngine.
Proof. apply Reachable_NewFSM. exact NewFSM_noFinalConfig. Defined.

Lemma Reachable_loopEngine : Reachable listOrder loopConfig loopEngine.
Proof. apply Reachable_NewFSM. vm_compute. reflexivity. Defined.

Lemma Reachable_freshMain :
  Reachable listOrder main.modThreeConfig (main.fsm freshMain).
Proof. apply Reachable_NewFSM. vm_compute. reflexivity. Defined.

Lemma validConfig_valid : ~ invalidConfig validConfig.
Proof.
  assert (Hv : validateAndBuildLookupSets listOrder validConfig
               = inr (list_to_set (Alphabet validConfig),
                      list_to_set (FinalStates validConfig)))
    by (vm_compute; reflexivity).
  by apply validate_inr in Hv as (_ & _ & ?).
Defined.

Lemma completeTable_modThreeConfig : completeTable modThreeConfig.
Proof.
  intros s x Hs Hx. apply list_elem_of_In in Hs, Hx. simpl in Hs, Hx.
  destruct Hs as [<-|[<-|[<-|[]]]]; destruct Hx as [<-|[<-|[]]];
    vm_compute; by eexists.
Defined.

Lemma isBinary_1 : isBinary "1".
Proof. repeat constructor; unfold binaryByte; vm_compute; tauto. Defined.

Lemma isBinary_110 : isBinary "110".
Proof. repeat constructor; unfold binaryByte; vm_compute; tauto. Defined.

Lemma isBinary_1101 : isBinary "1101".
Proof. repeat constructor; unfold binaryByte; vm_compute; tauto. Defined.

Lemma not_isBinary_102 : ~ isBinary "102".
Proof.
  intros Hbin. unfold isBinary in Hbin.
  change (bytes "102") with [49; 48; 50] in Hbin.
  rewrite !Forall_cons in Hbin. destruct Hbin as (_ & _ & [Hb|Hb] & _);
    discriminate Hb.
Defined.

(** X1 on the engine of [TestGenericFSM_ValidateInput]: 3 is in the
    alphabet and 4 is not, though the table is empty. *)
Lemma ValidateInput_alphabet_witness :
  Reachable listOrder noFinalConfig noFinalEngine
  /\ ValidateInput 3 noFinalEngine = true
  /\ ValidateInput 4 noFinalEngine = false.
Proof.
  split_and!.
  - exact Reachable_noFinalEngine.
  - apply (ValidateInput_alphabet listOrder noFinalConfig noFinalEngine 3
             Reachable_noFinalEngine).
    apply list_elem_of_In. simpl. tauto.
  - apply not_true_is_false. intros Ht.
    apply (ValidateInput_alphabet listOrder noFinalConfig noFinalEngine 4
             Reachable_noFinalEngine) in Ht.
    apply list_elem_of_In in Ht. simpl in Ht.
    destruct Ht as [Ht|[Ht|[Ht|[]]]]; discriminate Ht.
Defined.

(** X2 on the engine of [validConfig]: '0' makes a transition and is in
    the alphabet, '2' is refused and makes none. *)
Lemma Transition_only_on_alphabet_witness :
  Reachable listOrder validConfig validEngine
  /\ ValidateInput 48 validEngine = true
  /\ (exists e, Transition 50 validEngine = (Some e, validEngine))
  /\ Forall (fun x => x ∈ Alphabet validConfig) [48].
Proof.
  destruct (Transition_only_on_alphabet listOrder validConfig validEngine
              Reachable_validEngine) as (Hok & Hno & Hall).
  split_and!.
  - exact Reachable_validEngine.
  - apply (Hok 48 (Transition 48 validEngine).2). vm_compute. reflexivity.
  - apply Hno. vm_compute. reflexivity.
  - apply (Hall [48] (Process [48] validEngine).2). vm_compute. reflexivity.
Defined.

(** X3 on the modulo-3 automaton, whose table is complete. *)
Lemma complete_table_never_fails_witness :
  completeTable modThreeConfig
  /\ Forall (fun x => x ∈ Alphabet modThreeConfig) [49; 49; 48; 49]
  /\ (exists f', Process [49; 49; 48; 49] (fsm freshModThree) = (None, f'))
  /\ (exists f', Execute [49; 49; 48; 49] (fsm freshModThree) = (None, f')).
Proof.
  assert (Hall : Forall (fun x => x ∈ Alphabet modThreeConfig) [49; 49; 48; 49]).
  { repeat constructor; apply list_elem_of_In; simpl; tauto. }
  destruct (complete_table_never_fails listOrder modThreeConfig
              (fsm freshModThree) [49; 49; 48; 49]
              Reachable_freshModThree completeTable_modThreeConfig Hall)
    as [Hp He].
  split_and!; [exact completeTable_modThreeConfig | exact Hall | exact Hp | exact He].
Defined.

(** X4 on the engine of [validConfig]: '0' leads from A to B, and from
    B the table has nothing. *)
Lemma Process_extendedTransition_witness :
  extendedTransition validConfig "A" [48] = Some "B"
  /\ CurrentState (Process [48] validEngine).2 = "B"
  /\ (Process [48; 48] validEngine).1 <> None.
Proof.
  split_and!.
  - reflexivity.
  - apply (proj2 (Process_extendedTransition [48] validEngine) "B"). reflexivity.
  - intros Hnone.
    apply (proj1 (Process_extendedTransition [48; 48] validEngine)) in Hnone.
    destruct Hnone as [t Ht]. vm_compute in Ht. discriminate Ht.
Defined.

(** X5: [validConfig] gives the same engine in the opposite order. *)
Lemma NewFSM_order_independent_witness :
  NewFSM listOrder validConfig = inr validEngine
  /\ NewFSM reverseOrder validConfig = inr validEngine.
Proof.
  split; [exact NewFSM_validConfig|].
  apply (proj1 (NewFSM_order_independent listOrder reverseOrder validConfig)).
  exact NewFSM_validConfig.
Defined.

(** X6 on [manyDefects]: the first undeclared final state is reported,
    not the second and not the defects of the transition. *)
Lemma NewFSM_error_precedence_witness :
  NewFSM reverseOrder manyDefects = inl (errFinalState "C").
Proof.
  destruct (NewFSM_error_precedence reverseOrder manyDefects) as (_ & _ & _ & Hfinal).
  apply (Hfinal ["A"] "C" ["D"]).
  - discriminate.
  - discriminate.
  - apply list_elem_of_In. simpl. tauto.
  - reflexivity.
  - repeat constructor.
  - intros Hin. apply list_elem_of_In in Hin. simpl in Hin.
    destruct Hin as [Hin|[]]. discriminate Hin.
Defined.

(** X7 on a run that fails at the second symbol: one state appended. *)
Lemma Process_frame_witness :
  config (Process [48; 48] validEngine).2 = validConfig
  /\ exists visited,
      StateHistory (Process [48; 48] validEngine).2 = ["A"] ++ visited
      /\ (length visited <= 2)%nat.
Proof.
  destruct (Process_frame [48; 48] validEngine)
    as (Hc & _ & _ & visited & Hh & Hle & _).
  split; [exact Hc|]. exists visited. split; [exact Hh | exact Hle].
Defined.

(** X8: ['0'] then ['0'] on the engine of [validConfig] fails at
    position 1 of the whole. *)
Lemma Process_app_witness :
  (Process ([48] ++ [48]) validEngine).1
  = Some (errAtPosition 1 (errForState "B")).
Proof.
  destruct (Process_app [48] [48] validEngine) as [_ Hok].
  destruct (Hok (Transition 48 validEngine).2) as (_ & _ & Hpos).
  - vm_compute. reflexivity.
  - apply (Hpos 0%nat (errForState "B")). vm_compute. reflexivity.
Defined.

(** X9: the engine of [validConfig] fresh and after a transition. *)
Lemma Execute_forgets_run_state_witness :
  Execute [48] validEngine = Execute [48] (Transition 48 validEngine).2.
Proof.
  apply (Execute_forgets_run_state listOrder reverseOrder validConfig).
  - exact Reachable_validEngine.
  - apply Reachable_Transition, Reachable_NewFSM. vm_compute. reflexivity.
Defined.

(** X10 on the engine of [validConfig] after '0'. *)
Lemma history_is_walk_witness :
  Reachable listOrder validConfig (Process [48] validEngine).2
  /\ historyWalk validConfig (StateHistory (Process [48] validEngine).2).
Proof.
  assert (Hr : Reachable listOrder validConfig (Process [48] validEngine).2)
    by (apply Reachable_Process; exact Reachable_validEngine).
  split; [exact Hr|].
  exact (history_is_walk listOrder validConfig _ Hr).
Defined.

(** X11: the error of a run that fails at position 1, and the error of
    "transition to undefined state". *)
Lemma run_errors_are_ErrNoTransition_witness :
  errors_Is (errAtPosition 1 (errForState (Input := Z) "B")) ErrNoTransition = true
  /\ errors_Is (errToState (Input := Z) "B") ErrNoTransition = false.
Proof.
  destruct (@run_errors_are_ErrNoTransition string Z _ _ _ _)
    as (_ & Hproc & _ & Hnew).
  split.
  - apply (Hproc [48; 48] validEngine _ (Process [48; 48] validEngine).2).
    vm_compute. reflexivity.
  - apply (Hnew listOrder toUndefinedState). vm_compute. reflexivity.
Defined.

(** X12 on [loopConfig]: the loop is there and the entry of
    [validConfig] still is. *)
Lemma AddTransition_spec_witness :
  lookupTransition loopConfig "A" 49 = Some "A"
  /\ lookupTransition loopConfig "A" 48 = lookupTransition validConfig "A" 48.
Proof.
  destruct (AddTransition_spec "A" 49 "A" validConfig) as (Hnew & Hold & _).
  split; [exact Hnew|].
  apply (Hold "A" 48). intros Heq. discriminate Heq.
Defined.

(** X13: [loopConfig] is valid, as [validConfig] is. *)
Lemma AddTransition_valid_witness :
  ~ invalidConfig validConfig /\ ~ invalidConfig loopConfig.
Proof.
  split; [exact validConfig_valid|].
  apply (proj2 (AddTransition_valid "A" 49 "A" validConfig validConfig_valid)).
  split_and!; apply list_elem_of_In; simpl; tauto.
Defined.

(** X14 on the engine of [loopConfig]. *)
Lemma AddTransition_then_run_witness :
  Reachable listOrder loopConfig loopEngine
  /\ (exists f', Transition 49 loopEngine = (None, f')
                 /\ CurrentState f' = "A"
                 /\ StateHistory f' = StateHistory loopEngine ++ ["A"])
  /\ (exists f', Execute [49] loopEngine = (None, f')
                 /\ CurrentState f' = "A"
                 /\ StateHistory f' = ["A"; "A"]).
Proof.
  destruct (AddTransition_then_run listOrder "A" 49 "A" validConfig loopEngine
              Reachable_loopEngine) as [Hstep Hrun].
  split_and!.
  - exact Reachable_loopEngine.
  - apply Hstep. reflexivity.
  - apply Hrun. reflexivity.
Defined.

(** X15 on "1101" and on "102". *)
Lemma ParseInput_accepts_binary_witness :
  ParseInput "1101" freshModThree = inr (Some [49; 49; 48; 49])
  /\ (exists char i,
        ParseInput "102" freshModThree = inl (errInvalidBinaryCharacter char i)
        /\ ~ binaryByte char).
Proof.
  split.
  - destruct (ParseInput_accepts_binary listOrder freshModThree "1101"
                Reachable_freshModThree) as (Hyes & _).
    exact (Hyes isBinary_1101).
  - destruct (ParseInput_accepts_binary listOrder freshModThree "102"
                Reachable_freshModThree) as (_ & Hno & _).
    exact (Hno not_isBinary_102).
Defined.

(** X16 on "1101". *)
Lemma ComputeModThree_ok_iff_binary_witness :
  (ComputeModThree "1101" freshModThree).1.2 = true
  /\ 0 <= (ComputeModThree "1101" freshModThree).1.1 < 3.
Proof.
  destruct (ComputeModThree_ok_iff_binary listOrder freshModThree "1101"
              Reachable_freshModThree) as (Hok & Hrange & _).
  split; [apply Hok; exact isBinary_1101 | exact Hrange].
Defined.

(** X17 on "110", which is six. *)
Lemma IsDivisibleByThree_iff_witness :
  (IsDivisibleByThree "110" freshModThree).1 = true.
Proof.
  destruct (IsDivisibleByThree_iff listOrder freshModThree "110"
              Reachable_freshModThree) as [Hiff _].
  apply Hiff. split; [exact isBinary_110 | reflexivity].
Defined.

(** X18: "1", then "0": the remainder returned is 0 and the engine is
    still in state 1. *)
Lemma ComputeModThree_zero_keeps_run_witness :
  (ComputeModThree "0" (ComputeModThree "1" freshModThree).2).1 = (0, true)
  /\ CurrentState
       (fsm (ComputeModThree "0" (ComputeModThree "1" freshModThree).2).2) = 1.
Proof.
  destruct (ComputeModThree_zero_keeps_run listOrder freshModThree "1"
              Reachable_freshModThree isBinary_1)
    as (Hzero & _ & Hcur & _); [discriminate | discriminate |].
  split; [by rewrite Hzero | exact Hcur].
Defined.

(** X19 on "1": true, though one is no multiple of three. *)
Lemma main_IsDivisibleByThree_iff_binary_witness :
  (main.IsDivisibleByThree "1" freshMain).1 = true
  /\ (main.IsDivisibleByThree "102" freshMain).1 <> true.
Proof.
  destruct (main_IsDivisibleByThree_iff_binary listOrder) as [_ Hall].
  split.
  - apply (Hall freshMain "1" Reachable_freshMain). exact isBinary_1.
  - intros Ht. apply (Hall freshMain "102" Reachable_freshMain) in Ht.
    exact (not_isBinary_102 Ht).
Defined.

(** X20 on "110": the engine ends in the final state. *)
Lemma main_final_state_iff_divisible_witness :
  CurrentState (main.fsm (main.IsDivisibleByThree "110" freshMain).2) = 0
  /\ IsInFinalState (main.fsm (main.IsDivisibleByThree "110" freshMain).2) = true.
Proof.
  destruct (main_final_state_iff_divisible listOrder freshMain "110"
              Reachable_freshMain isBinary_110) as [Hcur Hfinal];
    [discriminate | discriminate |].
  split; [exact Hcur | apply Hfinal; reflexivity].
Defined.
